(** * A same-origin site crawler and its content extractor

    Shallow embedding of [simple_scraper.py] (the crawl path), of the
    single-page scraper of [chatbot_with_url_scraping.py] and of the
    structured-file reader of [chatbot_with_context.py], with the
    properties their specification states about them.  The rest of the
    three files is embedded after that: the [txt] and [markdown] formats
    of [save_results] and [main] of [simple_scraper.py]; the search for
    URLs in a message, the prompt and the handler of a message of
    [chatbot_with_url_scraping.py]; [load_scraped_data] on a file system
    and the prompt of [chatbot_with_context.py]; with properties read
    off the code.

    Python values are modelled as follows.
    - A [str] is the list of its Unicode code points, so that [len] is
      [length] and slicing is [take].
    - A Python [int] is a [Z].
    - A [set] of strings is a [gset]; the order in which a [for] loop
      iterates over it is a parameter of the environment.
    - A call that may raise has a [result]: the value it returns, or the
      message of the exception.
    - A parsed document ([BeautifulSoup(..., 'html.parser')]) is a list of
      [node] trees; the parser itself is not modelled. *)

From Stdlib Require Import ZArith NArith String Ascii.
From Stdlib Require Import DecimalFacts DecimalPos.
From stdpp Require Import base option list gmap sorting.

Set Default Proof Using "Type".

(** ** Python strings *)

Abbreviation str := (list N).

(** An ASCII literal as a Python string. *)
Definition py (s : string) : str := N_of_ascii <$> list_ascii_of_string s.

(** [str.isspace] on one code point: the code points Python treats as
    white space, which are the ones [str.strip()] removes. *)
Definition whitespace : list N :=
  [9; 10; 11; 12; 13; 28; 29; 30; 31; 32; 133; 160; 5760;
   8192; 8193; 8194; 8195; 8196; 8197; 8198; 8199; 8200; 8201; 8202;
   8232; 8233; 8239; 8287; 12288]%N.

Definition isspace (c : N) : bool := bool_decide (c ∈ whitespace).

(** The line boundaries of [str.splitlines]. *)
Definition line_boundaries : list N :=
  [10; 11; 12; 13; 28; 29; 30; 133; 8232; 8233]%N.

Definition is_linebreak (c : N) : bool := bool_decide (c ∈ line_boundaries).

Definition LF : N := 10%N.
Definition CR : N := 13%N.

Fixpoint lstrip (s : str) : str :=
  match s with
  | [] => []
  | c :: s' => if isspace c then lstrip s' else s
  end.

Definition rstrip (s : str) : str := reverse (lstrip (reverse s)).

(** [s.strip()] *)
Definition strip (s : str) : str := rstrip (lstrip s).

(** [s.splitlines()]: [cur] is the current line, reversed; [after_cr]
    records that the previous character was a carriage return, so that a
    line feed right after it belongs to the same boundary. *)
Fixpoint splitlines_from (cur : str) (after_cr : bool) (s : str) : list str :=
  match s with
  | [] => match cur with [] => [] | _ => [reverse cur] end
  | c :: s' =>
      if after_cr && bool_decide (c = LF) then splitlines_from cur false s'
      else if is_linebreak c
           then reverse cur :: splitlines_from [] (bool_decide (c = CR)) s'
           else splitlines_from (c :: cur) false s'
  end.

Definition splitlines (s : str) : list str := splitlines_from [] false s.

(** [sep.join(parts)] *)
Fixpoint join (sep : str) (parts : list str) : str :=
  match parts with
  | [] => []
  | [p] => p
  | p :: rest => p ++ sep ++ join sep rest
  end.

(** [s.split('#')[0]]: what precedes the first number sign. *)
Fixpoint split_hash_0 (s : str) : str :=
  match s with
  | [] => []
  | c :: s' => if bool_decide (c = 35%N) then [] else c :: split_hash_0 s'
  end.

(** ** Parsed documents *)

#[warnings="-register-all"]
Inductive node :=
  | NavigableString (s : str)
  | Comment (s : str)
  | Tag (name : str) (attrs : list (str * str)) (contents : list node).

Definition tag_name (n : node) : option str :=
  match n with Tag name _ _ => Some name | _ => None end.

Definition has_name (names : list str) (n : node) : bool :=
  match n with Tag name _ _ => bool_decide (name ∈ names) | _ => false end.

(** The elements of a subtree in document order, the root first. *)
Fixpoint tags (n : node) : list node :=
  match n with
  | Tag _ _ contents => n :: flat_map tags contents
  | _ => []
  end.

Definition descendants (soup : list node) : list node := flat_map tags soup.

(** [soup.find_all(names)] and [soup.find(name)] *)
Definition find_all (names : list str) (soup : list node) : list node :=
  List.filter (has_name names) (descendants soup).

Definition find (name : str) (soup : list node) : option node :=
  head (find_all [name] soup).

(** The text nodes below a node, in document order.  Comments and the
    like are not part of [get_text]. *)
Fixpoint strings (n : node) : list str :=
  match n with
  | NavigableString s => [s]
  | Comment _ => []
  | Tag _ _ contents => flat_map strings contents
  end.

(** [tag.get_text()] *)
Definition get_text (soup : list node) : str :=
  concat (flat_map strings soup).

(** [tag.get_text(separator=sep, strip=True)] *)
Definition nonempty (s : str) : bool :=
  match s with [] => false | _ => true end.

Definition get_text_strip (sep : str) (soup : list node) : str :=
  join sep (List.filter nonempty (strip <$> flat_map strings soup)).

(** [for t in soup(names): t.decompose()]: every element with one of the
    names is removed from the tree, with all it contains. *)
Fixpoint decompose (names : list str) (n : node) : list node :=
  match n with
  | Tag name attrs contents =>
      if bool_decide (name ∈ names) then []
      else [Tag name attrs (flat_map (decompose names) contents)]
  | _ => [n]
  end.

Definition decompose_all (names : list str) (soup : list node) : list node :=
  flat_map (decompose names) soup.

(** ** The extractor shared by both scrapers *)

Definition noise : list str :=
  [py "script"; py "style"; py "nav"; py "footer"; py "header"].

(** [soup.find('main') or soup.find('article') or soup.body]; an element
    is always true in a condition, whatever it contains. *)
Definition main_content (soup : list node) : option node :=
  match find (py "main") soup with
  | Some m => Some m
  | None =>
      match find (py "article") soup with
      | Some a => Some a
      | None => find (py "body") soup
      end
  end.

Definition region_text (soup : list node) : str :=
  match main_content soup with
  | Some region => get_text_strip [LF] [region]
  | None => get_text_strip [LF] soup
  end.

(** [lines = [line.strip() for line in text.splitlines() if line.strip()]]
    followed by ['\n'.join(lines)] *)
Definition clean_lines (text : str) : list str :=
  strip <$> List.filter (fun line => nonempty (strip line)) (splitlines text).

Definition clean_text (text : str) : str := join [LF] (clean_lines text).

Definition page_title (url : str) (soup : list node) : str :=
  match find (py "title") soup with
  | Some t => get_text [t]
  | None => url
  end.

(** Title and text of a parsed page, as both scrapers compute them. *)
Definition extract (url : str) (soup : list node) : str * str :=
  let soup := decompose_all noise soup in
  (page_title url soup, clean_text (region_text soup)).

(** ** Exceptions and the environment *)

(** The outcome of a call that may raise: the value it returns, or the
    message of the exception. *)
Inductive result (A : Type) :=
  | Raise (message : str)
  | Return (value : A).
Arguments Raise {A} message.
Arguments Return {A} value.

(** What [requests.get] returns: the status code and the body, the body
    given as the tree [BeautifulSoup(response.content, 'html.parser')]
    builds from it. *)
Record response := Response { status_code : Z; soup : list node }.

(** Everything outside the program.  [requests_get n url] answers the
    [n]-th request of the run, so a page may change or fail between two
    requests; [datetime_now n] is the clock read after [n] requests.
    [set_iter] is the order in which a loop goes through a set: some
    enumeration of its elements, each once.  [urljoin] and
    [urlparse_netloc] are [urllib.parse.urljoin] and
    [urllib.parse.urlparse(...).netloc]; both raise [ValueError] on some
    inputs. *)
Record env := Env {
  requests_get : nat → str → result response;
  http_error : response → str;
  datetime_now : nat → str;
  set_iter : gset str → list str;
  set_iter_elem : ∀ s x, x ∈ set_iter s ↔ x ∈ s;
  set_iter_nodup : ∀ s, NoDup (set_iter s);
  urljoin : str → str → result str;
  urlparse_netloc : str → result str;
}.

(** [response.raise_for_status()] raises for a 4xx or 5xx status. *)
Definition is_http_error (status : Z) : bool :=
  bool_decide (400 ≤ status < 600)%Z.

(** ** [simple_scraper.scrape_webpage] *)

Module Page.
Record t := Mk {
  url : str;
  title : str;
  content : str;
  length : Z;
  timestamp : str;
}.
End Page.

(** [n] is the number of requests issued before this call.  [None] is
    the [None] of the [except] branch. *)
Definition scrape_webpage (E : env) (n : nat) (url : str) : option Page.t :=
  match requests_get E n url with
  | Raise _ => None
  | Return r =>
      if is_http_error (status_code r) then None
      else
        let '(title, text) := extract url (soup r) in
        Some (Page.Mk url title text (Z.of_nat (length text))
                      (datetime_now E (S n)))
  end.

(** ** [chatbot_with_url_scraping.scrape_url] *)

Inductive scraped :=
  | Success (url title content : str) (length : Z)
  | Failure (url error : str).

Definition scrape_url (E : env) (n : nat) (url : str) : scraped :=
  match requests_get E n url with
  | Raise e => Failure url e
  | Return r =>
      if is_http_error (status_code r) then Failure url (http_error E r)
      else
        let '(title, text) := extract url (soup r) in
        Success url title (take (Z.to_nat 15000) text) (Z.of_nat (length text))
  end.

(** ** [simple_scraper.get_links] *)

Definition attr (key : str) (n : node) : option str :=
  match n with
  | Tag _ attrs _ => snd <$> List.find (fun kv => bool_decide (kv.1 = key)) attrs
  | _ => None
  end.

(** [link['href'] for link in soup.find_all('a', href=True)] *)
Definition anchor_hrefs (soup : list node) : list str :=
  omap (attr (py "href")) (find_all [py "a"] soup).

(** The body of the [for] loop over the anchors, [links] being the set
    built so far.  An exception leaves the loop. *)
Fixpoint add_links (E : env) (base_url : str) (hrefs : list str)
    (links : gset str) : result (gset str) :=
  match hrefs with
  | [] => Return links
  | href :: rest =>
      match urljoin E base_url href with
      | Raise e => Raise e
      | Return full_url =>
          match urlparse_netloc E full_url with
          | Raise e => Raise e
          | Return netloc =>
              match urlparse_netloc E base_url with
              | Raise e => Raise e
              | Return base_netloc =>
                  if decide (netloc = base_netloc)
                  then add_links E base_url rest
                         ({[split_hash_0 full_url]} ∪ links)
                  else add_links E base_url rest links
              end
          end
      end
  end.

(** The link set of a parsed page; any exception gives the empty set. *)
Definition page_links (E : env) (base_url : str) (soup : list node) : gset str :=
  match add_links E base_url (anchor_hrefs soup) ∅ with
  | Raise _ => ∅
  | Return links => links
  end.

(** [get_links] requests the page again, does not look at the status,
    and answers the empty set when anything raises. *)
Definition get_links (E : env) (n : nat) (url base_url : str) : gset str :=
  match requests_get E n url with
  | Raise _ => ∅
  | Return r => page_links E base_url (soup r)
  end.

(** ** [simple_scraper.scrape_website] *)

Record config := Config {
  start_url : str;
  max_pages : Z;
  max_depth : Z;
}.

(** The three variables of the loop, and three history variables that
    the program does not have and nothing it computes depends on, except
    that the number of requests so far selects the answer of the
    environment: [gets] lists the URL of every [requests.get] issued,
    [scrapes] the calls of [scrape_webpage] with the depth of the entry
    and whether a page came back, [popped] the entries taken from the
    queue; all three in order of time. *)
Record state := State {
  visited : gset str;
  to_visit : list (str * Z);
  results : list Page.t;
  gets : list str;
  scrapes : list (str * Z * bool);
  popped : list (str * Z);
}.

Definition initial (cfg : config) : state :=
  State ∅ [(start_url cfg, 0%Z)] [] [] [] [].

(** The entries the inner [for] loop appends for the links of a page
    found at [depth]. *)
Definition new_entries (visited : gset str) (depth : Z) (new_links : list str)
    : list (str * Z) :=
  (fun link => (link, (depth + 1)%Z)) <$>
    List.filter (fun link => bool_decide (link ∉ visited)) new_links.

(** One pass through the body of the [while] loop, after
    [url, depth = to_visit.pop(0)] left [rest] in the queue. *)
Definition iteration (E : env) (cfg : config) (st : state)
    (url : str) (depth : Z) (rest : list (str * Z)) : state :=
  let popped' := popped st ++ [(url, depth)] in
  if bool_decide (url ∈ visited st) || bool_decide (max_depth cfg < depth)%Z
  then State (visited st) rest (results st) (gets st) (scrapes st) popped'
  else
    match scrape_webpage E (length (gets st)) url with
    | None =>
        State (visited st) rest (results st) (gets st ++ [url])
              (scrapes st ++ [(url, depth, false)]) popped'
    | Some data =>
        let results' := results st ++ [data] in
        let visited' := {[url]} ∪ visited st in
        let scrapes' := scrapes st ++ [(url, depth, true)] in
        if bool_decide (depth < max_depth cfg)%Z
        then
          let new_links :=
            get_links E (S (length (gets st))) url (start_url cfg) in
          State visited'
                (rest ++ new_entries visited' depth (set_iter E new_links))
                results' (gets st ++ [url; url]) scrapes' popped'
        else
          State visited' rest results' (gets st ++ [url]) scrapes' popped'
    end.

(** The loop condition and one pass; [None] when the loop is left. *)
Definition step (E : env) (cfg : config) (st : state) : option state :=
  match to_visit st with
  | [] => None
  | (url, depth) :: rest =>
      if bool_decide (Z.of_nat (size (visited st)) < max_pages cfg)%Z
      then Some (iteration E cfg st url depth rest)
      else None
  end.

(** The [while] loop, for at most [fuel] passes. *)
Fixpoint while_loop (E : env) (cfg : config) (fuel : nat) (st : state)
    : option state :=
  match step E cfg st with
  | None => Some st
  | Some st' =>
      match fuel with
      | O => None
      | S fuel' => while_loop E cfg fuel' st'
      end
  end.

Definition scrape_website (E : env) (fuel : nat)
    (start_url : str) (max_pages max_depth : Z) : option (list Page.t) :=
  results <$> while_loop E (Config start_url max_pages max_depth) fuel
                (initial (Config start_url max_pages max_depth)).

(** The states the loop goes through. *)
Inductive reachable (E : env) (cfg : config) : state → Prop :=
  | reachable_initial : reachable E cfg (initial cfg)
  | reachable_step st st' :
      reachable E cfg st → step E cfg st = Some st' → reachable E cfg st'.

(** ** A model of [urllib.parse]

    [urljoin] and [urlparse(...).netloc] as CPython 3.11 defines them,
    for [str] arguments and [allow_fragments=True].  Two checks are left
    as parameters: [check_bracketed_netloc], reached only by a network
    location with both an opening and a closing square bracket, and
    [checknetloc], reached only by a network location with a character
    outside ASCII; each gives the message of the [ValueError] it raises,
    if any. *)
Module Urllib.

Definition uses_relative : list str :=
  py <$> [""; "ftp"; "http"; "gopher"; "nntp"; "imap"; "wais"; "file";
          "https"; "shttp"; "mms"; "prospero"; "rtsp"; "rtspu"; "sftp";
          "svn"; "svn+ssh"; "ws"; "wss"]%string.

Definition uses_netloc : list str :=
  py <$> [""; "ftp"; "http"; "gopher"; "nntp"; "telnet"; "imap"; "wais";
          "file"; "mms"; "https"; "shttp"; "snews"; "prospero"; "rtsp";
          "rtspu"; "rsync"; "svn"; "svn+ssh"; "sftp"; "nfs"; "git";
          "git+ssh"; "ws"; "wss"]%string.

Definition uses_params : list str :=
  py <$> [""; "ftp"; "hdl"; "prospero"; "http"; "imap"; "https"; "shttp";
          "rtsp"; "rtspu"; "sip"; "sips"; "mms"; "sftp"; "tel"]%string.

Definition is_upper (c : N) : bool := ((65 <=? c) && (c <=? 90))%N.
Definition is_lower (c : N) : bool := ((97 <=? c) && (c <=? 122))%N.
Definition is_digit (c : N) : bool := ((48 <=? c) && (c <=? 57))%N.

(** [c in scheme_chars] *)
Definition is_scheme_char (c : N) : bool :=
  is_lower c || is_upper c || is_digit c
  || bool_decide (c ∈ [43; 45; 46]%N).

Definition lower (s : str) : str :=
  (fun c => if is_upper c then (c + 32)%N else c) <$> s.

(** [s.split(c, 1)] when [c] occurs in [s]: what precedes the first
    occurrence and what follows it. *)
Fixpoint partition (c : N) (s : str) : option (str * str) :=
  match s with
  | [] => None
  | x :: s' =>
      if bool_decide (x = c) then Some ([], s')
      else prod_map (cons x) id <$> partition c s'
  end.

(** [s.split(c)] *)
Fixpoint split_from (c : N) (cur : str) (s : str) : list str :=
  match s with
  | [] => [reverse cur]
  | x :: s' =>
      if bool_decide (x = c) then reverse cur :: split_from c [] s'
      else split_from c (x :: cur) s'
  end.
Definition split (c : N) (s : str) : list str := split_from c [] s.

Definition is_c0_or_space (c : N) : bool := (c <=? 32)%N.

Fixpoint lstrip_c0 (s : str) : str :=
  match s with
  | [] => []
  | c :: s' => if is_c0_or_space c then lstrip_c0 s' else s
  end.

Definition strip_c0 (s : str) : str :=
  reverse (lstrip_c0 (reverse (lstrip_c0 s))).

(** Tab, carriage return and line feed are removed. *)
Definition remove_unsafe (s : str) : str :=
  List.filter (fun c => negb (bool_decide (c ∈ [9; 13; 10]%N))) s.

(** [_splitnetloc(url, 2)] on a [url] that starts with two slashes,
    given what follows them. *)
Fixpoint splitnetloc (s : str) : str * str :=
  match s with
  | [] => ([], [])
  | c :: s' =>
      if bool_decide (c ∈ [47; 63; 35]%N) then ([], s)
      else prod_map (cons c) id (splitnetloc s')
  end.

Record SplitResult := Split {
  scheme : str; netloc : str; path : str; query : str; fragment : str;
}.

Record ParseResult := Parse {
  pscheme : str; pnetloc : str; ppath : str; pparams : str;
  pquery : str; pfragment : str;
}.

Definition contains (c : N) (s : str) : bool := bool_decide (c ∈ s).

Section Checks.
Variables check_bracketed_netloc checknetloc : str → option str.

Definition split_scheme (url scheme : str) : str * str :=
  match partition 58 url with
  | Some (c :: pre, post) =>
      if (is_upper c || is_lower c)
         && forallb is_scheme_char (c :: pre)
      then (lower (c :: pre), post)
      else (scheme, url)
  | _ => (scheme, url)
  end.

Definition split_netloc (url : str) : result (str * str) :=
  match url with
  | 47%N :: 47%N :: after =>
      let '(netloc, url) := splitnetloc after in
      if (contains 91 netloc && negb (contains 93 netloc))
         || (contains 93 netloc && negb (contains 91 netloc))
      then Raise (py "Invalid IPv6 URL")
      else if contains 91 netloc && contains 93 netloc
      then match check_bracketed_netloc netloc with
           | Some e => Raise e
           | None => Return (netloc, url)
           end
      else Return (netloc, url)
  | _ => Return ([], url)
  end.

Definition urlsplit (url scheme : str) : result SplitResult :=
  let url := remove_unsafe (lstrip_c0 url) in
  let scheme := remove_unsafe (strip_c0 scheme) in
  let '(scheme, url) := split_scheme url scheme in
  match split_netloc url with
  | Raise e => Raise e
  | Return (netloc, url) =>
      let '(url, fragment) :=
        match partition 35 url with
        | Some (u, f) => (u, f)
        | None => (url, [])
        end in
      let '(url, query) :=
        match partition 63 url with
        | Some (u, q) => (u, q)
        | None => (url, [])
        end in
      match (if nonempty netloc && negb (forallb (fun c => c <? 128)%N netloc)
             then checknetloc netloc else None) with
      | Some e => Raise e
      | None => Return (Split scheme netloc url query fragment)
      end
  end.

(** [_splitparams] *)
Definition splitparams (url : str) : str * str :=
  let last := List.last (split 47 url) [] in
  if contains 47 url then
    match partition 59 last with
    | None => (url, [])
    | Some (before, after) =>
        (take (length url - length last) url ++ before, after)
    end
  else
    match partition 59 url with
    | None => (take (length url - 1) url, url)
    | Some (before, after) => (before, after)
    end.

Definition urlparse (url scheme : str) : result ParseResult :=
  match urlsplit url scheme with
  | Raise e => Raise e
  | Return (Split scheme netloc url query fragment) =>
      let '(url, params) :=
        if bool_decide (scheme ∈ uses_params) && contains 59 url
        then splitparams url else (url, []) in
      Return (Parse scheme netloc url params query fragment)
  end.

Definition urlunsplit (scheme netloc url query fragment : str) : str :=
  let url :=
    if nonempty netloc
       || (nonempty scheme && bool_decide (scheme ∈ uses_netloc)
           && negb (bool_decide (take 2 url = [47; 47]%N)))
    then
      let url :=
        if nonempty url && negb (bool_decide (take 1 url = [47%N]))
        then 47%N :: url else url in
      [47; 47]%N ++ netloc ++ url
    else url in
  let url := if nonempty scheme then scheme ++ [58%N] ++ url else url in
  let url := if nonempty query then url ++ [63%N] ++ query else url in
  if nonempty fragment then url ++ [35%N] ++ fragment else url.

Definition urlunparse (scheme netloc url params query fragment : str) : str :=
  let url := if nonempty params then url ++ [59%N] ++ params else url in
  urlunsplit scheme netloc url query fragment.

(** [segments[1:-1] = filter(None, segments[1:-1])] *)
Definition filter_middle (segments : list str) : list str :=
  match segments with
  | first :: (_ :: _) as others =>
      first :: List.filter nonempty (removelast others)
            ++ [List.last others []]
  | _ => segments
  end.

(** The loop over the segments, [resolved] holding [resolved_path]
    in reverse. *)
Fixpoint resolve (segments : list str) (resolved : list str) : list str :=
  match segments with
  | [] => reverse resolved
  | seg :: rest =>
      if bool_decide (seg = py "..") then resolve rest (tail resolved)
      else if bool_decide (seg = py ".") then resolve rest resolved
      else resolve rest (seg :: resolved)
  end.

Definition urljoin (base url : str) : result str :=
  if negb (nonempty base) then Return url
  else if negb (nonempty url) then Return base
  else
    match urlparse base [] with
    | Raise e => Raise e
    | Return (Parse bscheme bnetloc bpath bparams bquery bfragment) =>
        match urlparse url bscheme with
        | Raise e => Raise e
        | Return (Parse scheme netloc path params query fragment) =>
            if negb (bool_decide (scheme = bscheme))
               || negb (bool_decide (scheme ∈ uses_relative))
            then Return url
            else if bool_decide (scheme ∈ uses_netloc) && nonempty netloc
            then Return (urlunparse scheme netloc path params query fragment)
            else
              let netloc :=
                if bool_decide (scheme ∈ uses_netloc) then bnetloc
                else netloc in
              if negb (nonempty path) && negb (nonempty params)
              then
                Return (urlunparse scheme netloc bpath bparams
                          (if nonempty query then query else bquery)
                          fragment)
              else
                let base_parts := split 47 bpath in
                let base_parts :=
                  if nonempty (List.last base_parts [])
                  then removelast base_parts else base_parts in
                let segments :=
                  if bool_decide (take 1 path = [47%N]) then split 47 path
                  else filter_middle (base_parts ++ split 47 path) in
                let resolved := resolve segments [] in
                let resolved :=
                  if bool_decide (List.last segments [] ∈ [py "."; py ".."])
                  then resolved ++ [[]] else resolved in
                let joined := join [47%N] resolved in
                Return (urlunparse scheme netloc
                          (if nonempty joined then joined else [47%N])
                          params query fragment)
        end
    end.

(** [urlparse(url).netloc] *)
Definition urlparse_netloc (url : str) : result str :=
  match urlparse url [] with
  | Raise e => Raise e
  | Return r => Return (pnetloc r)
  end.
End Checks.
End Urllib.

(** ** [json]: the values, the writer and the reader

    The Python values that [json.dump] is given here and that
    [json.load] gives back: [None], booleans, integers, strings, lists,
    and dictionaries with string keys, their items in insertion order.
    Floats are left out: the reader below gives nothing for a number
    with a fraction or an exponent and for [NaN] and [Infinity], where
    Python gives a float.  Python's limit on the number of digits of an
    integer it prints or reads is not modelled. *)
#[warnings="-register-all"]
Inductive pyobj :=
  | PNone
  | PBool (b : bool)
  | PInt (z : Z)
  | PStr (s : str)
  | PList (items : list pyobj)
  | PDict (items : list (str * pyobj)).

Module Json.

(** *** Integers in decimal *)

Definition digit_char (d : N) : N := (48 + d)%N.

Fixpoint uint_chars (d : Decimal.uint) : str :=
  match d with
  | Decimal.Nil => []
  | Decimal.D0 d => digit_char 0 :: uint_chars d
  | Decimal.D1 d => digit_char 1 :: uint_chars d
  | Decimal.D2 d => digit_char 2 :: uint_chars d
  | Decimal.D3 d => digit_char 3 :: uint_chars d
  | Decimal.D4 d => digit_char 4 :: uint_chars d
  | Decimal.D5 d => digit_char 5 :: uint_chars d
  | Decimal.D6 d => digit_char 6 :: uint_chars d
  | Decimal.D7 d => digit_char 7 :: uint_chars d
  | Decimal.D8 d => digit_char 8 :: uint_chars d
  | Decimal.D9 d => digit_char 9 :: uint_chars d
  end.

(** [int.__repr__] *)
Definition int_repr (z : Z) : str :=
  match Z.to_int z with
  | Decimal.Pos d => uint_chars d
  | Decimal.Neg d => 45%N :: uint_chars d
  end.

Definition is_digit (c : N) : bool := ((48 <=? c) && (c <=? 57))%N.

(** The numeral of a sequence of digit characters. *)
Fixpoint chars_uint (s : str) : Decimal.uint :=
  match s with
  | [] => Decimal.Nil
  | c :: s' =>
      let d := chars_uint s' in
      match (c - 48)%N with
      | 0 => Decimal.D0 d | 1 => Decimal.D1 d | 2 => Decimal.D2 d
      | 3 => Decimal.D3 d | 4 => Decimal.D4 d | 5 => Decimal.D5 d
      | 6 => Decimal.D6 d | 7 => Decimal.D7 d | 8 => Decimal.D8 d
      | _ => Decimal.D9 d
      end%N
  end.

(** *** The writer: [json.dumps(o, indent=2, ensure_ascii=False)] *)

Definition hex_char (d : N) : N := if (d <? 10)%N then (48 + d)%N else (87 + d)%N.

(** The replacement of one character inside a string: a backslash
    form for the quote, the backslash and the control characters, the
    character itself otherwise. *)
Definition escape (c : N) : str :=
  if bool_decide (c = 34%N) then [92; 34]%N
  else if bool_decide (c = 92%N) then [92; 92]%N
  else if bool_decide (c = 8%N) then [92; 98]%N
  else if bool_decide (c = 12%N) then [92; 102]%N
  else if bool_decide (c = 10%N) then [92; 110]%N
  else if bool_decide (c = 13%N) then [92; 114]%N
  else if bool_decide (c = 9%N) then [92; 116]%N
  else if (c <? 32)%N
  then [92; 117; 48; 48; hex_char (c / 16); hex_char (c mod 16)]%N
  else [c].

Definition encode_basestring (s : str) : str :=
  34%N :: flat_map escape s ++ [34%N].

Definition newline_indent (level : nat) : str :=
  LF :: concat (replicate level [32; 32]%N).

(** The items of a list or dictionary at [level], each on a line of
    its own. *)
Definition block (opening closing : N) (level : nat) (items : list str) : str :=
  match items with
  | [] => [opening; closing]
  | _ =>
      opening :: newline_indent (S level)
      ++ join (44%N :: newline_indent (S level)) items
      ++ newline_indent level ++ [closing]
  end.

Fixpoint iterencode (level : nat) (o : pyobj) : str :=
  match o with
  | PNone => py "null"
  | PBool true => py "true"
  | PBool false => py "false"
  | PInt z => int_repr z
  | PStr s => encode_basestring s
  | PList items => block 91 93 level (iterencode (S level) <$> items)
  | PDict items =>
      block 123 125 level
        ((fun kv => encode_basestring kv.1 ++ [58; 32]%N
                    ++ iterencode (S level) kv.2) <$> items)
  end.

Definition dumps (o : pyobj) : str := iterencode 0 o.

(** *** The reader: [json.loads(s)] *)

Definition is_ws (c : N) : bool := bool_decide (c ∈ [32; 9; 10; 13]%N).

Fixpoint skip_ws (s : str) : str :=
  match s with
  | c :: s' => if is_ws c then skip_ws s' else s
  | [] => []
  end.

Definition hex_value (c : N) : option N :=
  if is_digit c then Some (c - 48)%N
  else if ((97 <=? c) && (c <=? 102))%N then Some (c - 87)%N
  else if ((65 <=? c) && (c <=? 70))%N then Some (c - 55)%N
  else None.

(** The four hexadecimal digits of a [\u] form. *)
Definition decode_uXXXX (h1 h2 h3 h4 : N) : option N :=
  a ← hex_value h1; b ← hex_value h2; c ← hex_value h3; d ← hex_value h4;
  Some (a * 4096 + b * 256 + c * 16 + d)%N.

(** [BACKSLASH] *)
Definition backslash (esc : N) : option N :=
  if bool_decide (esc ∈ [34; 92; 47]%N) then Some esc
  else if bool_decide (esc = 98%N) then Some 8%N
  else if bool_decide (esc = 102%N) then Some 12%N
  else if bool_decide (esc = 110%N) then Some 10%N
  else if bool_decide (esc = 114%N) then Some 13%N
  else if bool_decide (esc = 116%N) then Some 9%N
  else None.

(** [scanstring], from after the opening quote: the string, its
    characters accumulated in reverse, and what follows the closing
    quote. *)
Fixpoint scanstring (s : str) (acc : str) : option (str * str) :=
  match s with
  | [] => None
  | c :: s1 =>
      if bool_decide (c = 34%N) then Some (reverse acc, s1)
      else if bool_decide (c = 92%N) then
        match s1 with
        | [] => None
        | esc :: s2 =>
            if bool_decide (esc = 117%N) then
              match s2 with
              | h1 :: h2 :: h3 :: h4 :: s3 =>
                  match decode_uXXXX h1 h2 h3 h4 with
                  | None => None
                  | Some uni =>
                      if ((55296 <=? uni) && (uni <=? 56319))%N then
                        match s3 with
                        | 92%N :: 117%N :: s4 =>
                            match s4 with
                            | g1 :: g2 :: g3 :: g4 :: s5 =>
                                match decode_uXXXX g1 g2 g3 g4 with
                                | None => None
                                | Some uni2 =>
                                    if ((56320 <=? uni2) && (uni2 <=? 57343))%N
                                    then scanstring s5
                                           ((65536 + ((uni - 55296) * 1024
                                                      + (uni2 - 56320)))%N
                                            :: acc)
                                    else scanstring s3 (uni :: acc)
                                end
                            | _ => None
                            end
                        | _ => scanstring s3 (uni :: acc)
                        end
                      else scanstring s3 (uni :: acc)
                  end
              | _ => None
              end
            else
              match backslash esc with
              | Some char => scanstring s2 (char :: acc)
              | None => None
              end
        end
      else if (c <? 32)%N then None
      else scanstring s1 (c :: acc)
  end.

Fixpoint span_digits (s : str) : str * str :=
  match s with
  | c :: s' =>
      if is_digit c then prod_map (cons c) id (span_digits s') else ([], s)
  | [] => ([], [])
  end.

(** What follows the integer part makes the number a float when it is
    a point and a digit, or an exponent mark, an optional sign and a
    digit. *)
Definition float_follows (s : str) : bool :=
  match s with
  | 46%N :: d :: _ => is_digit d
  | e :: s' =>
      bool_decide (e ∈ [101; 69]%N) &&
      match s' with
      | sign :: d :: _ =>
          is_digit sign || (bool_decide (sign ∈ [43; 45]%N) && is_digit d)
      | [d] => is_digit d
      | [] => false
      end
  | [] => false
  end.

(** The number at the head of [s]: its digits after an optional minus
    sign, a single zero or a digit from one to nine and the digits
    that follow. *)
Definition match_number (s : str) : option (pyobj * str) :=
  let '(negative, s1) :=
    match s with 45%N :: s' => (true, s') | _ => (false, s) end in
  match s1 with
  | c :: s2 =>
      if is_digit c then
        let '(digits, rest) :=
          if bool_decide (c = 48%N) then ([c], s2)
          else prod_map (cons c) id (span_digits s2) in
        if float_follows rest then None
        else
          let n := Z.of_N (N.of_uint (chars_uint digits)) in
          Some (PInt (if negative then - n else n)%Z, rest)
      else None
  | [] => None
  end.

(** [dict(pairs)]: a later value for a key replaces the earlier one,
    where the earlier one stands. *)
Fixpoint dict_set (key : str) (value : pyobj) (items : list (str * pyobj))
    : list (str * pyobj) :=
  match items with
  | [] => [(key, value)]
  | (k, v) :: rest =>
      if bool_decide (k = key) then (k, value) :: rest
      else (k, v) :: dict_set key value rest
  end.

Definition dict_of (pairs : list (str * pyobj)) : list (str * pyobj) :=
  foldl (fun d kv => dict_set kv.1 kv.2 d) [] pairs.

(** [scan_once], and the loops of [JSONArray] and [JSONObject]; the
    accumulators hold what was read so far, in reverse.  [fuel] bounds
    the number of calls. *)
Fixpoint scan_once (fuel : nat) (s : str) : option (pyobj * str) :=
  match fuel with
  | O => None
  | S fuel =>
      match s with
      | [] => None
      | 34%N :: s' => prod_map PStr id <$> scanstring s' []
      | 123%N :: s' =>
          let s1 :=
            match s' with 34%N :: _ => s' | _ => skip_ws s' end in
          match s1 with
          | 125%N :: rest => Some (PDict [], rest)
          | 34%N :: s2 => object_loop fuel s2 []
          | _ => None
          end
      | 91%N :: s' =>
          match skip_ws s' with
          | 93%N :: rest => Some (PList [], rest)
          | s1 => array_loop fuel s1 []
          end
      | _ :: _ =>
          if bool_decide (take 4 s = py "null")
          then Some (PNone, drop 4 s)
          else if bool_decide (take 4 s = py "true")
          then Some (PBool true, drop 4 s)
          else if bool_decide (take 5 s = py "false")
          then Some (PBool false, drop 5 s)
          else match_number s
      end
  end
with array_loop (fuel : nat) (s : str) (acc : list pyobj)
    : option (pyobj * str) :=
  match fuel with
  | O => None
  | S fuel =>
      match scan_once fuel s with
      | None => None
      | Some (value, s1) =>
          match skip_ws s1 with
          | 93%N :: rest => Some (PList (reverse (value :: acc)), rest)
          | 44%N :: s2 => array_loop fuel (skip_ws s2) (value :: acc)
          | _ => None
          end
      end
  end
with object_loop (fuel : nat) (s : str) (acc : list (str * pyobj))
    : option (pyobj * str) :=
  match fuel with
  | O => None
  | S fuel =>
      match scanstring s [] with
      | None => None
      | Some (key, s1) =>
          match skip_ws s1 with
          | 58%N :: s2 =>
              match scan_once fuel (skip_ws s2) with
              | None => None
              | Some (value, s3) =>
                  match skip_ws s3 with
                  | 125%N :: rest =>
                      Some (PDict (dict_of (reverse ((key, value) :: acc))),
                            rest)
                  | 44%N :: s4 =>
                      match skip_ws s4 with
                      | 34%N :: s5 => object_loop fuel s5 ((key, value) :: acc)
                      | _ => None
                      end
                  | _ => None
                  end
              end
          | _ => None
          end
      end
  end.

(** [json.loads]: a document, with white space around it and nothing
    else; a byte order mark at the start is refused. *)
Definition loads (s : str) : option pyobj :=
  match s with
  | 65279%N :: _ => None
  | _ =>
      match scan_once (2 * length s + 2) (skip_ws s) with
      | Some (o, rest) =>
          match skip_ws rest with [] => Some o | _ => None end
      | None => None
      end
  end.
End Json.

(** ** Text files

    A file opened in text mode: on writing a line feed becomes the line
    separator of the platform, a line feed or a carriage return and a
    line feed; on reading a carriage return, with the line feed that
    follows it if any, becomes a line feed.  The encoding of the
    characters to bytes and back is not modelled. *)
Definition write_text (crlf : bool) (s : str) : str :=
  flat_map (fun c => if bool_decide (c = LF) && crlf then [CR; LF] else [c]) s.

Fixpoint read_text (content : str) : str :=
  match content with
  | [] => []
  | c :: rest =>
      if bool_decide (c = CR) then
        LF :: match rest with
              | c' :: rest' => if bool_decide (c' = LF) then read_text rest'
                               else read_text rest
              | [] => []
              end
      else c :: read_text rest
  end.

(** ** [simple_scraper.save_results], the [json] format *)

(** The dictionary [scrape_webpage] returns. *)
Definition to_dict (data : Page.t) : pyobj :=
  PDict [(py "url", PStr (Page.url data));
         (py "title", PStr (Page.title data));
         (py "content", PStr (Page.content data));
         (py "length", PInt (Page.length data));
         (py "timestamp", PStr (Page.timestamp data))].

(** What [json.dump(results, f, indent=2, ensure_ascii=False)] leaves in
    the file [f]; [crlf] tells whether the platform ends lines with a
    carriage return and a line feed. *)
Definition save_results_json (crlf : bool) (results : list Page.t) : str :=
  write_text crlf (Json.dumps (PList (to_dict <$> results))).

(** ** [chatbot_with_context.load_scraped_data], for a [.json] file *)

(** [json.load(f)] *)
Definition json_load (content : str) : option pyobj :=
  Json.loads (read_text content).

(** [item[key]]; [None] when it raises. *)
Definition getitem (key : str) (item : pyobj) : option pyobj :=
  match item with
  | PDict items => snd <$> List.find (fun kv => bool_decide (kv.1 = key)) items
  | _ => None
  end.

(** What an f-string puts for a value; lists and dictionaries are not
    modelled. *)
Definition format_value (o : pyobj) : option str :=
  match o with
  | PStr s => Some s
  | PInt z => Some (Json.int_repr z)
  | PNone => Some (py "None")
  | PBool true => Some (py "True")
  | PBool false => Some (py "False")
  | _ => None
  end.

(** [f"Source: {item['url']}\nTitle: {item['title']}\n{item['content']}"] *)
Definition context_entry (item : pyobj) : option str :=
  url ← getitem (py "url") item ≫= format_value;
  title ← getitem (py "title") item ≫= format_value;
  content ← getitem (py "content") item ≫= format_value;
  Some (py "Source: " ++ url ++ [LF] ++ py "Title: " ++ title ++ [LF] ++ content).

Definition load_scraped_data (content : str) : option str :=
  data ← json_load content;
  match data with
  | PList items => join [LF; LF] <$> mapM context_entry items
  | _ => None
  end.

(** ** The clock

    A reading of the clock, [datetime.now()], and the two formats
    [save_results] prints it in.  [%Y] is the year in decimal, as the C
    library prints it; the other fields have two digits. *)
Module Datetime.
Record t := Mk {
  year : N; month : N; day : N; hour : N; minute : N; second : N;
}.

Definition decimal (n : N) : str := Json.int_repr (Z.of_N n).

Definition two_digits (n : N) : str :=
  if (n <? 10)%N then 48%N :: decimal n else decimal n.

(** [d.strftime('%Y%m%d_%H%M%S')] *)
Definition strftime_compact (d : t) : str :=
  decimal (year d) ++ two_digits (month d) ++ two_digits (day d) ++ [95%N]
  ++ two_digits (hour d) ++ two_digits (minute d) ++ two_digits (second d).

(** [d.strftime('%Y-%m-%d %H:%M:%S')] *)
Definition strftime_readable (d : t) : str :=
  decimal (year d) ++ [45%N] ++ two_digits (month d) ++ [45%N]
  ++ two_digits (day d) ++ [32%N] ++ two_digits (hour d) ++ [58%N]
  ++ two_digits (minute d) ++ [58%N] ++ two_digits (second d).
End Datetime.

(** ** Paths and files

    [pathlib.Path] for POSIX paths: a path is the root, if any, and the
    components between slashes, empty components and single dots left
    out.  A file system is a map from the path of a regular file, as
    [open] is given it, to the content of the file; directories, links
    and permissions are not modelled. *)
Module Pathlib.
Definition components (s : str) : list str :=
  List.filter (fun x => nonempty x && negb (bool_decide (x = py ".")))
    (Urllib.split 47 s).

(** [part.lstrip('/')] *)
Fixpoint lstrip_sep (s : str) : str :=
  match s with
  | c :: s' => if bool_decide (c = 47%N) then lstrip_sep s' else s
  | [] => []
  end.

(** The root that [splitroot] finds: one slash for a path that starts
    with one slash or with three and more, two for a path that starts
    with exactly two. *)
Definition root (s : str) : str :=
  match s with
  | c :: _ =>
      if bool_decide (c = 47%N) then
        if bool_decide (length s - length (lstrip_sep s) = 2)
        then [47; 47]%N else [47%N]
      else []
  | [] => []
  end.

(** [str(Path(s))] *)
Definition to_str (s : str) : str :=
  let text := root s ++ join [47%N] (components s) in
  if nonempty text then text else py ".".

(** [Path(s).name] *)
Definition name (s : str) : str := List.last (components s) [].

(** [s.rfind(c)], when [c] occurs in [s]. *)
Fixpoint rfind (c : N) (s : str) : option nat :=
  match s with
  | [] => None
  | x :: s' =>
      match rfind c s' with
      | Some i => Some (S i)
      | None => if bool_decide (x = c) then Some 0 else None
      end
  end.

(** [Path(s).suffix] *)
Definition suffix (s : str) : str :=
  let name := name s in
  match rfind 46 name with
  | Some i => if (0 <? i) && (i <? length name - 1) then drop i name else []
  | None => []
  end.
End Pathlib.

(** ** [simple_scraper.save_results] and [simple_scraper.main] *)
Module SimpleScraper.

(** ['='*80] *)
Definition rule : str := replicate 80 61%N.

(** What the [txt] format writes for one record. *)
Definition txt_entry (result : Page.t) : str :=
  py "URL: " ++ Page.url result ++ [LF]
  ++ py "Title: " ++ Page.title result ++ [LF]
  ++ rule ++ [LF]
  ++ Page.content result
  ++ [LF; LF] ++ rule ++ [LF; LF].

Definition txt_text (results : list Page.t) : str :=
  concat (txt_entry <$> results).

(** What the [markdown] format writes for the record at [index] of
    [enumerate(results, 1)]. *)
Definition markdown_entry (index : nat) (result : Page.t) : str :=
  py "## " ++ Json.int_repr (Z.of_nat index) ++ py ". " ++ Page.title result
  ++ [LF; LF]
  ++ py "**URL:** " ++ Page.url result ++ [LF; LF]
  ++ Page.content result
  ++ [LF; LF] ++ py "---" ++ [LF; LF].

Definition markdown_text (scraped_at : Datetime.t) (results : list Page.t)
    : str :=
  py "# Scraped Documentation" ++ [LF; LF]
  ++ py "**Scraped at:** " ++ Datetime.strftime_readable scraped_at ++ [LF; LF]
  ++ py "**Total pages:** " ++ Json.int_repr (Z.of_nat (length results))
  ++ [LF; LF]
  ++ py "---" ++ [LF; LF]
  ++ concat (imap (fun i result => markdown_entry (S i) result) results).

(** [save_results(results, output_format)]: the name of the file and the
    file system with the file written.  [now] is the clock when the
    function is entered, [scraped_at] when the [markdown] format reads it
    again, and [crlf] tells how the platform ends lines.  A format that
    is none of the three leaves [filename] without a value, which the
    last two statements of the function raise on. *)
Definition save_results (crlf : bool) (now scraped_at : Datetime.t)
    (fs : gmap str str) (results : list Page.t) (output_format : str)
    : result (str * gmap str str) :=
  let timestamp := Datetime.strftime_compact now in
  if decide (output_format = py "json") then
    let filename := py "scraped_data_" ++ timestamp ++ py ".json" in
    Return (filename, <[filename := save_results_json crlf results]> fs)
  else if decide (output_format = py "txt") then
    let filename := py "scraped_data_" ++ timestamp ++ py ".txt" in
    Return (filename, <[filename := write_text crlf (txt_text results)]> fs)
  else if decide (output_format = py "markdown") then
    let filename := py "scraped_data_" ++ timestamp ++ py ".md" in
    Return (filename,
            <[filename := write_text crlf (markdown_text scraped_at results)]> fs)
  else
    Raise (py "cannot access local variable 'filename' where it is not associated with a value").

(** The arguments of the command line, as [argparse] gives them; the
    format is one of its three choices. *)
Inductive format_choice := json | txt | markdown.

Definition format_name (choice : format_choice) : str :=
  match choice with
  | json => py "json"
  | txt => py "txt"
  | markdown => py "markdown"
  end.

Record args := Args {
  url : str;
  max_pages : Z;
  max_depth : Z;
  format : format_choice;
  single : bool;
}.

(** [main()] after the arguments are parsed: the file system it leaves.
    What it prints is not modelled.  [None] when the crawl does not end
    within [fuel] passes. *)
Definition main (E : env) (fuel : nat) (crlf : bool)
    (now scraped_at : Datetime.t) (fs : gmap str str) (a : args)
    : option (gmap str str) :=
  let save results :=
    match save_results crlf now scraped_at fs results (format_name (format a)) with
    | Return (_, fs') => fs'
    | Raise _ => fs
    end in
  if single a then
    match scrape_webpage E 0 (url a) with
    | Some result => Some (save [result])
    | None => Some fs
    end
  else
    match scrape_website E fuel (url a) (max_pages a) (max_depth a) with
    | Some [] => Some fs
    | Some results => Some (save results)
    | None => None
    end.
End SimpleScraper.

(** ** [chatbot_with_context] *)
Module ChatbotWithContext.

(** [load_scraped_data(file_path)] on a file system.  The inner [None]
    is the [None] the function returns.  The outer one is that of the
    [.json] branch on the content of the file, above: an exception,
    raised when the file is no JSON document or an item lacks a key, or
    a value that is not modelled there. *)
Definition load_scraped_data (fs : gmap str str) (file_path : str)
    : option (option str) :=
  match fs !! Pathlib.to_str file_path with
  | None => Some None
  | Some content =>
      if decide (Pathlib.suffix file_path = py ".json") then
        Some <$> load_scraped_data content
      else if bool_decide (Pathlib.suffix file_path ∈ [py ".md"; py ".txt"]) then
        Some (Some (read_text content))
      else Some None
  end.

(** The prompt of [generate_response_with_context]. *)
Definition system_prompt (context : str) : str :=
  py "You are a helpful AI assistant. Use the following context from scraped web pages to answer questions accurately."
  ++ [LF; LF]
  ++ py "If the answer is in the context, cite it. If not, say you don't have that information in the provided context."
  ++ [LF; LF]
  ++ py "CONTEXT:" ++ [LF]
  ++ take (Z.to_nat 10000) context
  ++ py "  # Limit to first 10k chars to avoid token limits" ++ [LF; LF]
  ++ py "---" ++ [LF; LF]
  ++ py "Answer the user's question based on the above context.".

Definition full_prompt (question context : str) : str :=
  system_prompt context ++ [LF; LF] ++ py "User Question: " ++ question.

(** [generate_response_with_context(question, context, model_name)];
    [generate_content] is the model, which answers a prompt with a text
    or raises.  A context that is [None] cannot be sliced. *)
Definition generate_response_with_context
    (generate_content : str → result str) (question : str)
    (context : option str) : result str :=
  match context with
  | None => Raise (py "'NoneType' object is not subscriptable")
  | Some context => generate_content (full_prompt question context)
  end.
End ChatbotWithContext.

(** ** [chatbot_with_url_scraping] *)
Module ChatbotWithUrlScraping.

(** *** [extract_urls_from_message]

    The pattern is [https?://(?:[-\w.]|(?:%[\da-fA-F]{2}))+].  For a
    character of ASCII [\w] is a letter, a digit or the underscore and
    [\d] a digit; beyond ASCII they are what the Unicode tables say,
    which are parameters here. *)
(** What follows [prefix] in a string that starts with it. *)
Fixpoint after_prefix (prefix s : str) : option str :=
  match prefix, s with
  | [], _ => Some s
  | c :: prefix', x :: s' =>
      if bool_decide (x = c) then after_prefix prefix' s' else None
  | _ :: _, [] => None
  end.

Definition ascii_alnum (c : N) : bool :=
  Urllib.is_lower c || Urllib.is_upper c || Urllib.is_digit c.

Section Pattern.
Variables unicode_alnum unicode_decimal : N → bool.

(** [\w] *)
Definition is_word (c : N) : bool :=
  (if (c <? 128)%N then ascii_alnum c else unicode_alnum c)
  || bool_decide (c = 95%N).

(** [[-\w.]] *)
Definition is_host_char (c : N) : bool :=
  bool_decide (c = 45%N) || is_word c || bool_decide (c = 46%N).

(** [[\da-fA-F]] *)
Definition is_hex (c : N) : bool :=
  (if (c <? 128)%N then Urllib.is_digit c else unicode_decimal c)
  || ((97 <=? c) && (c <=? 102))%N || ((65 <=? c) && (c <=? 70))%N.

(** The longest run of the group at the head of [s], and what follows
    it: each round takes one character of the class or a percent sign
    and two hexadecimal digits. *)
Fixpoint host (s : str) : str * str :=
  match s with
  | c :: s1 =>
      if is_host_char c then prod_map (cons c) id (host s1)
      else if bool_decide (c = 37%N) then
        match s1 with
        | h1 :: h2 :: s2 =>
            if is_hex h1 && is_hex h2
            then prod_map (fun m => c :: h1 :: h2 :: m) id (host s2)
            else ([], s)
        | _ => ([], s)
        end
      else ([], s)
  | [] => ([], [])
  end.

(** [://] and at least one round of the group. *)
Definition after_scheme (scheme s : str) : option (str * str) :=
  match after_prefix (py "://") s with
  | Some s1 =>
      let '(h, rest) := host s1 in
      if nonempty h then Some (scheme ++ py "://" ++ h, rest) else None
  | None => None
  end.

(** A match of the pattern at the head of [s]: the text matched and what
    follows it.  The optional [s] is tried first. *)
Definition match_url (s : str) : option (str * str) :=
  match after_prefix (py "http") s with
  | Some s1 =>
      match after_prefix (py "s") s1 with
      | Some s2 =>
          match after_scheme (py "https") s2 with
          | Some m => Some m
          | None => after_scheme (py "http") s1
          end
      | None => after_scheme (py "http") s1
      end
  | None => None
  end.

(** [re.findall]: the matches from left to right, the search going on
    where a match ends.  [skip] is the number of characters of the last
    match that are still to pass. *)
Fixpoint findall_from (skip : nat) (s : str) : list str :=
  match s with
  | [] => []
  | _ :: s' =>
      match skip with
      | S k => findall_from k s'
      | O =>
          match match_url s with
          | Some (m, _) => m :: findall_from (length m - 1) s'
          | None => findall_from 0 s'
          end
      end
  end.

Definition extract_urls_from_message (message : str) : list str :=
  findall_from 0 message.

(** *** [generate_response_stream] and the handler of a message in [main] *)

(** The prompt: the question alone when the context is [None] or
    empty. *)
Definition stream_prompt (question : str) (context : option str) : str :=
  match context with
  | Some ((_ :: _) as context) =>
      py "Use the following context from a scraped webpage to answer the user's question."
      ++ [LF; LF]
      ++ py "CONTEXT:" ++ [LF]
      ++ context ++ [LF; LF]
      ++ py "---" ++ [LF; LF]
      ++ py "User Question: " ++ question ++ [LF; LF]
      ++ py "Answer based on the context provided. If the answer isn't in the context, say so."
  | _ => question
  end.

(** What the generator yields: the chunks of the model that are not
    empty.  The model answers a prompt with chunks of text; a model that
    raises is not modelled. *)
Definition generate_response_stream (generate_content : str → list str)
    (question : str) (context : option str) : list str :=
  List.filter nonempty (generate_content (stream_prompt question context)).

(** [f"URL: {data['url']}\nTitle: {data['title']}\n\n{data['content']}"]
    for a result with [success]. *)
Definition context_block (data : scraped) : option str :=
  match data with
  | Success url title content _ =>
      Some (py "URL: " ++ url ++ [LF] ++ py "Title: " ++ title ++ [LF; LF]
            ++ content)
  | Failure _ _ => None
  end.

(** [scraped_content]: the blocks of the results with [success], or
    [None] when there is none. *)
Definition scraped_content (results : list scraped) : option str :=
  match omap context_block results with
  | [] => None
  | blocks => Some (join ([LF; LF] ++ py "---" ++ [LF; LF]) blocks)
  end.

(** The handler of a message in [main]: the URLs requested, in order,
    one request for each call of [scrape_url], and the text shown at the
    end, which is what the generator yielded put together.  [n] is the
    number of requests issued before.  The display is not modelled. *)
Definition respond (E : env) (n : nat) (generate_content : str → list str)
    (message : str) : list str * str :=
  let urls := extract_urls_from_message message in
  let results := imap (fun i url => scrape_url E (n + i) url) urls in
  (urls,
   concat (generate_response_stream generate_content message
             (scraped_content results))).
End Pattern.
End ChatbotWithUrlScraping.

(** * The properties: vocabulary *)

(** The successful calls of [scrape_webpage] in a history, with the depth
    of the entry each was made for. *)
Definition successes (history : list (str * Z * bool)) : list (str * Z) :=
  fst <$> List.filter snd history.

Definition fetched (st : state) : list (str * Z) := successes (scrapes st).

(** Every entry ever put in the queue, in the order it was put there. *)
Definition discovered (st : state) : list (str * Z) := popped st ++ to_visit st.

Definition by_depth : relation (str * Z) := fun a b => (a.2 ≤ b.2)%Z.

(** A list without the repetitions of what it has shown before. *)
Definition first_seen (l : list str) : list str :=
  foldl (fun acc x => if bool_decide (x ∈ acc) then acc else acc ++ [x]) [] l.

(** [P before x] holds of every element [x] of a history, [before] being
    what precedes it. *)
Definition each_after {A} (P : list A → A → Prop) (l : list A) : Prop :=
  ∀ before x after, l = before ++ x :: after → P before x.

(** The link graph of a site as the crawl sees it: [url] links to [link]
    when some request for [url] gives a page whose link set, computed
    for this crawl, has [link]. *)
Definition links_to (E : env) (cfg : config) (url link : str) : Prop :=
  ∃ n, link ∈ get_links E n url (start_url cfg).

(** [link_path E cfg url d]: there are [d] links from the start to [url]. *)
Inductive link_path (E : env) (cfg : config) : str → Z → Prop :=
  | link_path_start : link_path E cfg (start_url cfg) 0
  | link_path_step url d link :
      link_path E cfg url d → links_to E cfg url link →
      link_path E cfg link (d + 1).

(** A site that answers a request for a URL the same way every time. *)
Definition static (E : env) : Prop :=
  ∀ n m url, requests_get E n url = requests_get E m url.

(** [n] passes of the loop, if it runs that long. *)
Fixpoint steps (E : env) (cfg : config) (n : nat) (st : state) : option state :=
  match n with
  | O => Some st
  | S n' => step E cfg st ≫= steps E cfg n'
  end.

(** A line as the extractor leaves it: not empty, without white space
    at either end, and without a line boundary. *)
Definition trimmed (line : str) : Prop :=
  line ≠ [] ∧ strip line = line ∧ Forall (fun c => is_linebreak c = false) line.

(** [href] resolves against [base_url] without an exception. *)
Definition resolves (E : env) (base_url href : str) : Prop :=
  ∃ full_url netloc base_netloc,
    urljoin E base_url href = Return full_url ∧
    urlparse_netloc E full_url = Return netloc ∧
    urlparse_netloc E base_url = Return base_netloc.

(** [link] is [href] resolved against [base_url], on the network
    location of [base_url], with its fragment removed. *)
Definition same_origin_target (E : env) (base_url href link : str) : Prop :=
  ∃ full_url netloc,
    urljoin E base_url href = Return full_url ∧
    urlparse_netloc E full_url = Return netloc ∧
    urlparse_netloc E base_url = Return netloc ∧
    link = split_hash_0 full_url.

(** The fields of an item that a reader of the file looks at. *)
Definition fields (item : pyobj)
    : option pyobj * option pyobj * option pyobj * option pyobj :=
  (getitem (py "url") item, getitem (py "title") item,
   getitem (py "content") item, getitem (py "length") item).

Definition entry_of (data : Page.t) : str :=
  py "Source: " ++ Page.url data ++ [LF] ++ py "Title: " ++ Page.title data
  ++ [LF] ++ Page.content data.

(** The shape of the text that the writer gives for a list of records,
    as the proofs about the reader follow it. *)
Module JsonShape.
Import Json.

(** What may follow a value inside a list or a dictionary written
    with an indent: a comma or a line feed. *)
Definition delimited (rest : str) : Prop :=
  ∃ c r, rest = c :: r ∧ (c = 44%N ∨ c = LF).

(** A value that is a string or an integer. *)
Definition scalar (o : pyobj) : Prop :=
  match o with PStr _ | PInt _ => True | _ => False end.

Definition member (level : nat) (kv : str * pyobj) : str :=
  encode_basestring kv.1 ++ [58; 32]%N ++ iterencode (S level) kv.2.


(** The text of the items of a dictionary from after the quote that
    opens the first key, with the closing brace and what follows. *)
Fixpoint members_tail (level : nat) (items : list (str * pyobj)) (rest : str)
    : str :=
  match items with
  | [] => []
  | kv :: more =>
      flat_map escape kv.1 ++ [34; 58; 32]%N ++ iterencode (S level) kv.2
      ++ match more with
         | [] => newline_indent level ++ 125%N :: rest
         | _ => 44%N :: newline_indent (S level)
                ++ 34%N :: members_tail level more rest
         end
  end.

(** The text of the records of a list from the first one on, with the
    closing bracket. *)
Fixpoint elements_tail (results : list Page.t) : str :=
  match results with
  | [] => []
  | data :: more =>
      iterencode 1 (to_dict data)
      ++ match more with
         | [] => newline_indent 0 ++ [93%N]
         | _ => 44%N :: newline_indent 1 ++ elements_tail more
         end
  end.

(** A text without a carriage return. *)
Definition no_cr (s : str) : Prop := Forall (fun c => c ≠ CR) s.
End JsonShape.

(** ** More vocabulary *)

(** The requests that a history of [scrape_webpage] calls stands for:
    one for each call, and one more for the links of a page scraped with
    success above the depth bound. *)
Definition requests_of (cfg : config) (history : list (str * Z * bool))
    : list str :=
  flat_map
    (fun call =>
       if call.2 && bool_decide (call.1.2 < max_depth cfg)%Z
       then [call.1.1; call.1.1] else [call.1.1])
    history.

(** Some request for [url] gives a record. *)
Definition scrapable (E : env) (url : str) : Prop :=
  ∃ n data, scrape_webpage E n url = Some data.

(** [scraped_path E cfg url d]: there are [d] links from the start to
    [url], each on a page that can be scraped. *)
Inductive scraped_path (E : env) (cfg : config) : str → Z → Prop :=
  | scraped_path_start : scraped_path E cfg (start_url cfg) 0
  | scraped_path_step url d link :
      scraped_path E cfg url d → scrapable E url → links_to E cfg url link →
      scraped_path E cfg link (d + 1).

(** [part] occurs in [s]. *)
Definition occurs_in (part s : str) : Prop :=
  ∃ before after, s = before ++ part ++ after.

(** The strings of [parts] stand in [s] one after the other, in order and
    without a character in common: [s] is a gap, the first part, a gap,
    the second part, and so on. *)
Definition in_order (parts : list str) (s : str) : Prop :=
  ∃ gaps rest,
    length gaps = length parts ∧ s = concat (zip_with app gaps parts) ++ rest.

(** A character that the pattern of a URL admits after the scheme, if
    it is one of ASCII: a letter, a digit, a hyphen, a point, an
    underscore or a percent sign. *)
Definition host_like (c : N) : Prop :=
  (c < 128)%N →
  ChatbotWithUrlScraping.ascii_alnum c = true ∨ c ∈ [45; 46; 95; 37]%N.

(** A record without a carriage return in its URL, its title and its
    content. *)
Definition cr_free (data : Page.t) : Prop :=
  JsonShape.no_cr (Page.url data) ∧ JsonShape.no_cr (Page.title data) ∧
  JsonShape.no_cr (Page.content data).

(** A character that is neither a slash nor a point, as are those of
    the clock and of the names of the formats in a file name of
    [save_results]. *)
Definition plain (c : N) : Prop := c ≠ 47%N ∧ c ≠ 46%N.

(** ** A small site

    The home page links to [/a], [/b], [/f] and to another site; [/a] and
    [/b] link to each other and to [/f] and [/c]; [/f] answers with
    status 500 and [/c] does not answer.  A fragment is not part of a
    request, so the site answers for a URL as for the URL without it.
    The links of a set are gone through in the order of [elements]. *)
Module Demo.
Definition anchor (href : string) : node :=
  Tag (py "a") [(py "href", py href)] [NavigableString (py href)].

Definition page (title : string) (hrefs : list string) : response :=
  Response 200
    [Tag (py "html") []
       [Tag (py "head") [] [Tag (py "title") [] [NavigableString (py title)]];
        Tag (py "body") [] (anchor <$> hrefs)]].

Definition home : str := py "https://ex.test/".
Definition a : str := py "https://ex.test/a".
Definition b : str := py "https://ex.test/b".
Definition c : str := py "https://ex.test/c".
Definition f : str := py "https://ex.test/f".

Definition site (url : str) : result response :=
  let url := split_hash_0 url in
  if decide (url = home)
  then Return (page "Home" ["/a"; "/b"; "https://other.test/x"; "/f"]%string)
  else if decide (url = a) then Return (page "A" ["/b"; "/f"; "#top"]%string)
  else if decide (url = b) then Return (page "B" ["/a"; "/c"]%string)
  else if decide (url = f) then Return (Response 500 [])
  else Raise (py "Connection refused").

Definition E : env :=
  Env (fun _ => site) (fun _ => py "500 Server Error")
      (fun _ => py "2024-01-01T00:00:00") elements
      (fun s x => elem_of_elements s x) NoDup_elements
      (Urllib.urljoin (fun _ => None) (fun _ => None))
      (Urllib.urlparse_netloc (fun _ => None) (fun _ => None)).

Definition cfg : config := Config home 10 2.

(** The same crawl, started from the home page with a fragment. *)
Definition cfg_fragment : config := Config (py "https://ex.test/#top") 10 2.

(** The state after [n] passes of the crawl, and at its end. *)
Definition after (n : nat) : state :=
  default (initial cfg) (steps E cfg n (initial cfg)).

Definition final : state :=
  default (initial cfg) (while_loop E cfg 7 (initial cfg)).

(** A page with two anchors, the second with an href that
    [urljoin] refuses. *)
Definition broken : list node := soup (page "Links" ["/a"; "http://["]%string).
End Demo.

(** ** Sample values

    A record, and two items of a file, the second without content. *)
Module Sample.
Definition record : Page.t :=
  Page.Mk (py "https://ex.test/") (py "Home") (py "Welcome") 7
          (py "2024-01-02T03:04:05").

Definition whole : pyobj :=
  PDict [(py "url", PStr (py "u")); (py "title", PStr (py "t"));
         (py "content", PStr (py "c"))].

Definition partial : pyobj :=
  PDict [(py "url", PStr (py "v")); (py "title", PStr (py "s"))].

Definition now : Datetime.t := Datetime.Mk 2024 1 2 3 4 5.
End Sample.

(** * Verification *)

Lemma each_after_nil {A} (P : list A → A → Prop) : each_after P [].
Proof. intros [|??] ?? ?; simplify_eq. Qed.

Lemma each_after_snoc {A} (P : list A → A → Prop) l x :
  each_after P l → P l x → each_after P (l ++ [x]).
Proof.
  intros Hl Hx before y after Heq.
  destruct after as [|z after _] using rev_ind.
  - apply app_inj_tail in Heq as [-> ->]. done.
  - rewrite app_comm_cons, app_assoc in Heq.
    apply app_inj_tail in Heq as [-> _]. by eapply Hl.
Qed.

Lemma successes_snoc_true history url depth :
  successes (history ++ [(url, depth, true)]) = successes history ++ [(url, depth)].
Proof. unfold successes. by rewrite List.filter_app, fmap_app. Qed.

Lemma successes_snoc_false history url depth :
  successes (history ++ [(url, depth, false)]) = successes history.
Proof. unfold successes. rewrite List.filter_app, fmap_app. apply app_nil_r. Qed.

Lemma first_seen_snoc l x :
  first_seen (l ++ [x]) =
  if bool_decide (x ∈ first_seen l) then first_seen l else first_seen l ++ [x].
Proof. unfold first_seen. by rewrite foldl_app. Qed.

Lemma elem_of_first_seen l x : x ∈ first_seen l ↔ x ∈ l.
Proof.
  induction l as [|y l IH] using rev_ind; [done|].
  rewrite first_seen_snoc. case_bool_decide; set_solver.
Qed.

Lemma NoDup_first_seen l : NoDup (first_seen l).
Proof.
  induction l as [|y l IH] using rev_ind; [constructor|].
  rewrite first_seen_snoc. case_bool_decide; [done|].
  apply NoDup_app. split_and!; [done| |apply NoDup_singleton].
  intros z Hz ->%list_elem_of_singleton. done.
Qed.

Lemma first_seen_app_prefix l k : first_seen l `prefix_of` first_seen (l ++ k).
Proof.
  induction k as [|y k IH] using rev_ind.
  - by rewrite app_nil_r.
  - rewrite app_assoc, first_seen_snoc. case_bool_decide; [done|].
    by apply prefix_app_r.
Qed.


(** ** Strings *)

Lemma lstrip_suffix s : lstrip s `suffix_of` s.
Proof.
  induction s as [|c s IH]; simpl; [done|].
  destruct (isspace c); [by apply suffix_cons_r|done].
Qed.

Lemma lstrip_Forall (P : N → Prop) s : Forall P s → Forall P (lstrip s).
Proof.
  intros Hs. destruct (lstrip_suffix s) as [k Hk].
  rewrite Hk in Hs. by apply Forall_app in Hs as [_ ?].
Qed.

Lemma strip_Forall (P : N → Prop) s : Forall P s → Forall P (strip s).
Proof.
  intros Hs. unfold strip, rstrip.
  by apply Forall_reverse, lstrip_Forall, Forall_reverse, lstrip_Forall.
Qed.

Lemma lstrip_idemp s : lstrip (lstrip s) = lstrip s.
Proof.
  induction s as [|c s IH]; simpl; [done|].
  destruct (isspace c) eqn:Hc; [done|]. simpl. by rewrite Hc.
Qed.

Lemma lstrip_snoc s c : isspace c = false → lstrip (s ++ [c]) = lstrip s ++ [c].
Proof.
  intros Hc. induction s as [|x s IH]; simpl; [by rewrite Hc|].
  by destruct (isspace x).
Qed.

Lemma rstrip_cons c s : isspace c = false → rstrip (c :: s) = c :: rstrip s.
Proof.
  intros Hc. unfold rstrip.
  by rewrite reverse_cons, lstrip_snoc, reverse_app by done.
Qed.

Lemma rstrip_idemp s : rstrip (rstrip s) = rstrip s.
Proof. unfold rstrip. by rewrite reverse_involutive, lstrip_idemp. Qed.

Lemma lstrip_rstrip_lstrip s : lstrip (rstrip (lstrip s)) = rstrip (lstrip s).
Proof.
  induction s as [|c s IH]; simpl; [done|].
  destruct (isspace c) eqn:Hc; [done|].
  rewrite rstrip_cons by done. simpl. by rewrite Hc.
Qed.

Lemma strip_idemp s : strip (strip s) = strip s.
Proof. unfold strip. by rewrite lstrip_rstrip_lstrip, rstrip_idemp. Qed.

Lemma linebreak_isspace c : is_linebreak c = true → isspace c = true.
Proof.
  unfold is_linebreak, isspace. rewrite !bool_decide_eq_true.
  unfold line_boundaries, whitespace. set_solver.
Qed.

Lemma splitlines_from_no_linebreak cur after_cr s :
  Forall (fun c => is_linebreak c = false) cur →
  Forall (Forall (fun c => is_linebreak c = false)) (splitlines_from cur after_cr s).
Proof.
  revert cur after_cr. induction s as [|c s IH]; intros cur after_cr Hcur; simpl.
  - destruct cur; [done|]. repeat constructor. by apply Forall_reverse.
  - destruct (after_cr && bool_decide (c = LF)); [by apply IH|].
    destruct (is_linebreak c) eqn:Hc.
    + constructor; [by apply Forall_reverse|by apply IH].
    + apply IH. by constructor.
Qed.

Lemma splitlines_from_app cur line rest :
  Forall (fun c => is_linebreak c = false) line →
  splitlines_from cur false (line ++ rest) =
  splitlines_from (reverse line ++ cur) false rest.
Proof.
  revert cur. induction line as [|c line IH]; intros cur Hline; simpl; [done|].
  apply Forall_cons in Hline as [Hc Hline]. rewrite Hc, IH by done.
  by rewrite reverse_cons, <-app_assoc.
Qed.

Lemma splitlines_from_LF cur s :
  splitlines_from cur false (LF :: s) = reverse cur :: splitlines_from [] false s.
Proof. reflexivity. Qed.

(** Lines without boundaries, joined by line feeds, split back into
    themselves. *)
Lemma splitlines_join lines :
  Forall (fun line => line ≠ [] ∧ Forall (fun c => is_linebreak c = false) line)
    lines →
  splitlines (join [LF] lines) = lines.
Proof.
  unfold splitlines. induction 1 as [|line lines [Hne Hline] Hlines IH]; [done|].
  destruct lines as [|line' lines].
  - simpl. rewrite <-(app_nil_r line) at 1.
    rewrite splitlines_from_app by done. simpl. rewrite app_nil_r.
    destruct (reverse line) eqn:Hr; [|by rewrite <-Hr, reverse_involutive].
    apply (f_equal reverse) in Hr. by rewrite reverse_involutive in Hr.
  - change (join [LF] (line :: line' :: lines))
      with (line ++ [LF] ++ join [LF] (line' :: lines)).
    rewrite splitlines_from_app by done.
    change ([LF] ++ ?s) with (LF :: s). rewrite splitlines_from_LF, app_nil_r.
    by rewrite reverse_involutive, IH.
Qed.

Lemma clean_lines_trimmed text : Forall trimmed (clean_lines text).
Proof.
  unfold clean_lines. apply Forall_fmap, Forall_forall.
  intros line [Hline Hne]%list_elem_of_In%filter_In. simpl. split_and!.
  - by destruct (strip line).
  - apply strip_idemp.
  - apply strip_Forall.
    pose proof (splitlines_from_no_linebreak [] false text (Forall_nil_2 _)) as Hall.
    rewrite Forall_forall in Hall. by apply Hall, list_elem_of_In.
Qed.

Lemma clean_lines_fixed lines :
  Forall trimmed lines → clean_lines (join [LF] lines) = lines.
Proof.
  intros Hlines. unfold clean_lines. rewrite splitlines_join.
  - induction Hlines as [|line lines (Hne & Hstrip & _) _ IH]; [done|].
    cbn [List.filter]. rewrite Hstrip.
    destruct line as [|c line]; [done|]. cbn [nonempty].
    rewrite fmap_cons. by rewrite Hstrip, IH.
  - eapply Forall_impl; [done|]. by intros line (? & _ & ?).
Qed.

(** ** Documents *)

Lemma node_induction (P : node → Prop) :
  (∀ s, P (NavigableString s)) →
  (∀ s, P (Comment s)) →
  (∀ name attrs contents, Forall P contents → P (Tag name attrs contents)) →
  ∀ n, P n.
Proof.
  intros Hs Hc Ht. fix IH 1. intros [s|s|name attrs contents]; [done..|].
  apply Ht. induction contents as [|n contents IHc]; constructor; [apply IH|done].
Qed.

Lemma flat_map_flat_map {A B C} (f : B → list C) (g : A → list B) l :
  flat_map f (flat_map g l) = flat_map (fun x => flat_map f (g x)) l.
Proof.
  induction l as [|x l IH]; simpl; [done|]. by rewrite flat_map_app, IH.
Qed.

Lemma Forall_flat_map {A B} (P : B → Prop) (f : A → list B) l :
  Forall (fun x => Forall P (f x)) l → Forall P (flat_map f l).
Proof. induction 1; simpl; [done|]. by apply Forall_app. Qed.

Lemma decompose_removes names n :
  Forall (fun t => has_name names t = false) (flat_map tags (decompose names n)).
Proof.
  induction n as [s|s|name attrs contents IH] using node_induction; simpl;
    [done..|].
  case_bool_decide as Hname; simpl; [done|]. rewrite app_nil_r. constructor.
  - simpl. by apply bool_decide_eq_false.
  - rewrite flat_map_flat_map. by apply Forall_flat_map.
Qed.

Lemma decompose_keeps names n :
  Forall (fun t => has_name names t = false) (tags n) → decompose names n = [n].
Proof.
  induction n as [s|s|name attrs contents IH] using node_induction; simpl;
    [done..|].
  intros [Hname Hrest]%Forall_cons. simpl in Hname. rewrite Hname.
  do 2 f_equal. clear Hname.
  induction IH as [|n contents Hn _ IHc]; simpl in *; [done|].
  apply Forall_app in Hrest as [Hn' Hrest]. by rewrite Hn, IHc.
Qed.

Lemma decompose_all_keeps names soup :
  Forall (fun t => has_name names t = false) (descendants soup) →
  decompose_all names soup = soup.
Proof.
  unfold decompose_all, descendants.
  induction soup as [|n soup IH]; simpl; [done|].
  intros [Hn Hsoup]%Forall_app. by rewrite decompose_keeps, IH.
Qed.

Lemma decompose_all_removes names soup :
  Forall (fun t => has_name names t = false)
    (descendants (decompose_all names soup)).
Proof.
  unfold decompose_all, descendants. rewrite flat_map_flat_map.
  apply Forall_flat_map, Forall_forall. intros n _. apply decompose_removes.
Qed.

Lemma find_Some name soup t :
  find name soup = Some t ↔
  ∃ before after, descendants soup = before ++ t :: after ∧
    tag_name t = Some name ∧ ∀ t', t' ∈ before → tag_name t' ≠ Some name.
Proof.
  unfold find, find_all. generalize (descendants soup) as l. intros l.
  assert (∀ t, has_name [name] t = true ↔ tag_name t = Some name) as Hname.
  { intros [| |name' ??]; simpl; try done.
    rewrite bool_decide_eq_true, list_elem_of_singleton. naive_solver. }
  induction l as [|x l IH]; simpl.
  - split; [done|]. by intros ([|??] & ? & ? & _).
  - destruct (has_name [name] x) eqn:Hx; simpl.
    + split.
      * intros [= <-]. exists [], l. split_and!; [done|by apply Hname|].
        by intros ? ?%elem_of_nil.
      * intros ([|y before] & after & Heq & Ht & Hbefore).
        { simpl in Heq. by injection Heq as -> _. }
        simpl in Heq. injection Heq as <- _.
        destruct (Hbefore x); [left|]. by apply Hname.
    + rewrite IH. split.
      * intros (before & after & -> & Ht & Hbefore).
        exists (x :: before), after. split_and!; [done..|].
        intros t' [->|?]%elem_of_cons; [|by auto].
        intros Hx'%Hname. by rewrite Hx in Hx'.
      * intros ([|y before] & after & Heq & Ht & Hbefore).
        { simpl in Heq. injection Heq as <- _.
          apply Hname in Ht. by rewrite Hx in Ht. }
        simpl in Heq. injection Heq as <- ->.
        exists before, after. split_and!; [done..|].
        intros t' Ht'. apply Hbefore. by right.
Qed.

Lemma find_None name soup :
  find name soup = None ↔
  ∀ t, t ∈ descendants soup → tag_name t ≠ Some name.
Proof.
  unfold find, find_all. generalize (descendants soup) as l. intros l.
  induction l as [|x l IH]; simpl.
  - split; [|done]. by intros _ ? ?%elem_of_nil.
  - destruct (has_name [name] x) eqn:Hx; simpl.
    + split; [done|]. intros Hall. destruct (Hall x); [left|].
      destruct x as [| |name' ??]; simpl in *; try done.
      apply bool_decide_eq_true, list_elem_of_singleton in Hx. by subst.
    + rewrite IH. split.
      * intros Hall t [->|?]%elem_of_cons; [|by auto].
        destruct x as [| |name' ??]; simpl in *; try done.
        apply bool_decide_eq_false in Hx. intros [= ->]. apply Hx. left.
      * intros Hall t Ht. apply Hall. by right.
Qed.

(** ** The extractor: the claims *)



(** ** The passes of the crawl loop *)

Section crawl.
Context (E : env) (cfg : config).

(** What one pass does to the state, by cases. *)
Inductive pass (st : state) (url : str) (depth : Z) (rest : list (str * Z))
    : state → Prop :=
  | pass_skip :
      url ∈ visited st ∨ (max_depth cfg < depth)%Z →
      pass st url depth rest
        (State (visited st) rest (results st) (gets st) (scrapes st)
               (popped st ++ [(url, depth)]))
  | pass_fail :
      url ∉ visited st → (depth ≤ max_depth cfg)%Z →
      scrape_webpage E (length (gets st)) url = None →
      pass st url depth rest
        (State (visited st) rest (results st) (gets st ++ [url])
               (scrapes st ++ [(url, depth, false)])
               (popped st ++ [(url, depth)]))
  | pass_ok data new more :
      url ∉ visited st → (depth ≤ max_depth cfg)%Z →
      scrape_webpage E (length (gets st)) url = Some data →
      new = [] ∧ more = [] ∨
      (depth < max_depth cfg)%Z ∧ more = [url] ∧
      new = new_entries ({[url]} ∪ visited st) depth
              (set_iter E (get_links E (S (length (gets st))) url
                             (start_url cfg))) →
      pass st url depth rest
        (State ({[url]} ∪ visited st) (rest ++ new) (results st ++ [data])
               (gets st ++ url :: more)
               (scrapes st ++ [(url, depth, true)])
               (popped st ++ [(url, depth)])).

Lemma iteration_pass st url depth rest :
  pass st url depth rest (iteration E cfg st url depth rest).
Proof.
  unfold iteration.
  destruct (bool_decide (url ∈ visited st)) eqn:Hv; simpl.
  { apply pass_skip. left. by apply bool_decide_eq_true in Hv. }
  apply bool_decide_eq_false in Hv.
  destruct (bool_decide (max_depth cfg < depth)%Z) eqn:Hd.
  { apply pass_skip. right. by apply bool_decide_eq_true in Hd. }
  apply bool_decide_eq_false in Hd.
  destruct (scrape_webpage E (length (gets st)) url) as [data|] eqn:Hs.
  - destruct (bool_decide (depth < max_depth cfg)%Z) eqn:Hlt.
    + apply bool_decide_eq_true in Hlt.
      eapply (pass_ok _ _ _ _ data _ [url]); eauto with lia.
    + replace rest with (rest ++ []) at 2 by apply app_nil_r.
      eapply (pass_ok _ _ _ _ data [] []); eauto with lia.
  - apply pass_fail; auto with lia.
Qed.

Lemma step_Some st st' :
  step E cfg st = Some st' →
  ∃ url depth rest,
    to_visit st = (url, depth) :: rest ∧
    (Z.of_nat (size (visited st)) < max_pages cfg)%Z ∧
    pass st url depth rest st'.
Proof.
  unfold step. destruct (to_visit st) as [|[url depth] rest]; [done|].
  case_bool_decide; [|done]. intros Hst. simplify_eq.
  exists url, depth, rest. eauto using iteration_pass.
Qed.

Lemma step_None st :
  step E cfg st = None ↔
  to_visit st = [] ∨ (max_pages cfg ≤ Z.of_nat (size (visited st)))%Z.
Proof.
  unfold step. destruct (to_visit st) as [|[url depth] rest].
  - naive_solver.
  - case_bool_decide; split; try done.
    + intros [|]; [done|lia].
    + intros _. right. lia.
Qed.

(** The URL of a record is the one that was asked for. *)
Lemma scrape_webpage_url n url data :
  scrape_webpage E n url = Some data → Page.url data = url.
Proof.
  unfold scrape_webpage. destruct (requests_get E n url); [done|].
  destruct (is_http_error _); [done|].
  destruct (extract url _). by intros [= <-].
Qed.

Lemma new_entries_spec visited depth links e :
  e ∈ new_entries visited depth links ↔
  e.2 = (depth + 1)%Z ∧ e.1 ∈ links ∧ e.1 ∉ visited.
Proof.
  unfold new_entries. rewrite list_elem_of_fmap. split.
  - intros (link & -> & Hin). apply list_elem_of_In, filter_In in Hin.
    destruct Hin as [Hin Hd]. apply bool_decide_eq_true in Hd.
    by rewrite list_elem_of_In.
  - destruct e as [u d]. simpl. intros (-> & Hin & Hv). exists u. split; [done|].
    apply list_elem_of_In, filter_In. split; [by apply list_elem_of_In|].
    by apply bool_decide_eq_true.
Qed.

(** *** What the visited set is *)

Lemma visited_invariant st :
  reachable E cfg st →
  (∀ u, u ∈ visited st ↔ u ∈ Page.url <$> results st) ∧
  NoDup (Page.url <$> results st) ∧
  size (visited st) = length (results st) ∧
  fst <$> fetched st = Page.url <$> results st ∧
  (∀ r, r ∈ results st → ∃ n, scrape_webpage E n (Page.url r) = Some r).
Proof.
  induction 1 as [|st st' _ IH Hstep].
  { simpl. split_and!; try done; [set_solver|constructor|set_solver]. }
  destruct IH as (Hv & Hnd & Hsz & Hf & Hr).
  apply step_Some in Hstep as (url & depth & rest & Hq & Hlt & Hpass).
  unfold fetched in *.
  inversion Hpass as [Hskip|Hnv Hd Hs|data new more Hnv Hd Hs Hnew]; subst; simpl.
  - done.
  - by rewrite successes_snoc_false.
  - pose proof (scrape_webpage_url _ _ _ Hs) as Hurl.
    rewrite successes_snoc_true, !fmap_app, Hf. simpl. rewrite Hurl.
    split_and!.
    + intros u. rewrite elem_of_union, elem_of_singleton, elem_of_app,
        list_elem_of_singleton, Hv. naive_solver.
    + apply NoDup_app. split_and!; [done| |apply NoDup_singleton].
      intros u Hu ->%list_elem_of_singleton. apply Hnv, Hv, Hu.
    + rewrite size_union, size_singleton, length_app by set_solver.
      simpl. lia.
    + done.
    + intros r [Hin| ->%list_elem_of_singleton]%elem_of_app; [by apply Hr|].
      rewrite Hurl. eauto.
Qed.

(** *** The history of [scrape_webpage] calls *)

Lemma scrapes_invariant st :
  reachable E cfg st →
  each_after
    (fun before x =>
       (x.1.1 ∉ (fst <$> successes before)) ∧
       (Z.of_nat (length (successes before)) < max_pages cfg)%Z ∧
       (x.1.2 ≤ max_depth cfg)%Z)
    (scrapes st).
Proof.
  induction 1 as [|st st' Hst IH Hstep].
  { apply each_after_nil. }
  pose proof (visited_invariant st Hst) as (Hv & _ & Hsz & Hf & _).
  unfold fetched in Hf.
  apply step_Some in Hstep as (url & depth & rest & Hq & Hlt & Hpass).
  assert (length (successes (scrapes st)) = size (visited st)) as Hlen.
  { rewrite Hsz, <-(length_fmap Page.url), <-Hf. by rewrite length_fmap. }
  inversion Hpass as [Hskip|Hnv Hd Hs|data new more Hnv Hd Hs Hnew]; subst; simpl.
  - done.
  - apply each_after_snoc; [done|]. simpl.
    rewrite Hf, Hlen, <-Hv. done.
  - apply each_after_snoc; [done|]. simpl.
    rewrite Hf, Hlen, <-Hv. done.
Qed.

(** *** The queue *)

Lemma discovered_grows st st' :
  step E cfg st = Some st' → ∃ new, discovered st' = discovered st ++ new.
Proof.
  intros (url & depth & rest & Hq & Hlt & Hpass)%step_Some. unfold discovered.
  inversion Hpass as [| |data new more]; subst; simpl; rewrite Hq.
  - exists []. by rewrite app_nil_r, <-app_assoc.
  - exists []. by rewrite app_nil_r, <-app_assoc.
  - exists new. by rewrite <-!app_assoc.
Qed.

Lemma queue_invariant st :
  reachable E cfg st →
  StronglySorted by_depth (discovered st) ∧
  (∀ e e', e ∈ to_visit st → e' ∈ to_visit st → (e.2 ≤ e'.2 + 1)%Z) ∧
  (∀ e, e ∈ discovered st → (0 ≤ e.2 ≤ Z.max 0 (max_depth cfg))%Z) ∧
  fst <$> scrapes st `sublist_of` popped st ∧
  (∀ e, e ∈ discovered st → link_path E cfg e.1 e.2).
Proof.
  induction 1 as [|st st' Hst IH Hstep]; unfold discovered in *.
  { simpl. split_and!.
    - repeat constructor.
    - intros e e' ->%list_elem_of_singleton ->%list_elem_of_singleton. simpl. lia.
    - intros e ->%list_elem_of_singleton. simpl. lia.
    - done.
    - intros e ->%list_elem_of_singleton. constructor. }
  destruct IH as (Hsorted & Hspan & Hbound & Hsub & Hpath).
  apply step_Some in Hstep as (url & depth & rest & Hq & Hlt & Hpass).
  rewrite Hq in *.
  assert (∀ e, e ∈ rest → (depth ≤ e.2 ≤ depth + 1)%Z) as Hrest.
  { intros e He. split.
    - apply StronglySorted_app_1_r, StronglySorted_cons in Hsorted as [Hall _].
      rewrite Forall_forall in Hall. by apply Hall in He.
    - apply (Hspan e (url, depth)); set_solver. }
  inversion Hpass as [Hskip|Hnv Hd Hs|data new more Hnv Hd Hs Hnew]; subst; simpl;
    rewrite <-?app_assoc; simpl.
  - split_and!; [done| |done| |done].
    + intros e e' He He'. apply Hspan; set_solver.
    + by apply sublist_inserts_r.
  - split_and!; [done| |done| |done].
    + intros e e' He He'. apply Hspan; set_solver.
    + rewrite fmap_app. by apply sublist_app.
  - assert (∀ e, e ∈ new →
      e.2 = (depth + 1)%Z ∧ (depth < max_depth cfg)%Z ∧
      links_to E cfg url e.1) as Hnew'.
    { destruct Hnew as [[-> _]|(Hlt' & _ & ->)]; [by intros e ?%elem_of_nil|].
      intros e (He2 & He1 & _)%new_entries_spec. split_and!; [done..|].
      eexists. by apply set_iter_elem in He1. }
    assert (popped st ++ (url, depth) :: rest ++ new =
            (popped st ++ (url, depth) :: rest) ++ new) as Hassoc
      by (by rewrite <-app_assoc).
    rewrite Hassoc. split_and!.
    + apply StronglySorted_app_2; [|done|].
      * intros e1 e2 He1 He2. apply Hnew' in He2 as (He2 & _). unfold by_depth.
        rewrite He2. apply elem_of_app in He1 as [He1|He1].
        -- apply (StronglySorted_app_1_elem_of _ _ _ e1 (url, depth)) in Hsorted;
             [unfold by_depth in Hsorted; simpl in *; lia|done|set_solver].
        -- apply elem_of_cons in He1 as [->|He1]; [simpl; lia|].
           apply Hrest in He1. lia.
      * clear -Hnew'. induction new as [|e new IH]; constructor.
        -- apply IH. intros; apply Hnew'; set_solver.
        -- apply Forall_forall. intros e' He'. unfold by_depth.
           destruct (Hnew' e) as [-> _]; [set_solver|].
           destruct (Hnew' e') as [-> _]; [set_solver|]. lia.
    + intros e e' [He|He]%elem_of_app [He'|He']%elem_of_app.
      * apply Hspan; set_solver.
      * apply Hrest in He. apply Hnew' in He' as (-> & _). lia.
      * apply Hrest in He'. apply Hnew' in He as (-> & _). lia.
      * apply Hnew' in He as (-> & _). apply Hnew' in He' as (-> & _). lia.
    + intros e [He|He]%elem_of_app; [by apply Hbound|].
      apply Hnew' in He as (-> & ? & _).
      assert (0 ≤ depth)%Z by (apply (Hbound (url, depth)); set_solver). lia.
    + rewrite fmap_app. by apply sublist_app.
    + intros e [He|He]%elem_of_app; [by apply Hpath|].
      apply Hnew' in He as (He2 & _ & Hl). rewrite He2.
      eapply link_path_step; [|done].
      apply (Hpath (url, depth)). set_solver.
Qed.

Lemma sublist_StronglySorted {A} (R : relation A) (l k : list A) :
  l `sublist_of` k → StronglySorted R k → StronglySorted R l.
Proof.
  induction 1 as [|x l k Hlk IH|x l k Hlk IH];
    rewrite ?StronglySorted_cons; [done| |naive_solver].
  intros [Hall Hk]. split; [|auto].
  rewrite Forall_forall in *. eauto using elem_of_sublist.
Qed.

Lemma successes_sublist history : successes history `sublist_of` fst <$> history.
Proof.
  unfold successes. apply fmap_sublist.
  induction history as [|x history IH]; simpl; [done|].
  destruct (snd x); by constructor.
Qed.

Lemma elem_of_successes history e :
  e ∈ successes history ↔ (e, true) ∈ history.
Proof.
  unfold successes. rewrite list_elem_of_fmap. split.
  - intros ([e' b] & -> & [Hin Hb]%list_elem_of_In%filter_In).
    simpl in *. subst. by apply list_elem_of_In.
  - intros Hin. exists (e, true). split; [done|].
    apply list_elem_of_In, filter_In. split; [by apply list_elem_of_In|done].
Qed.

Lemma fetched_sorted st :
  reachable E cfg st → StronglySorted by_depth (fetched st).
Proof.
  intros (Hsorted & _ & _ & Hsub & _)%queue_invariant.
  apply (sublist_StronglySorted _ _ (popped st)).
  - etrans; [apply successes_sublist|done].
  - by apply StronglySorted_app_1_l in Hsorted.
Qed.

(** *** Termination of the loop *)

Lemma while_loop_mono fuel fuel' st st' :
  while_loop E cfg fuel st = Some st' → fuel ≤ fuel' →
  while_loop E cfg fuel' st = Some st'.
Proof.
  revert fuel' st. induction fuel as [|fuel IH]; intros fuel' st; simpl.
  - destruct (step E cfg st) eqn:Hs; [done|].
    intros ? _. destruct fuel'; simpl; by rewrite Hs.
  - destruct (step E cfg st) as [st1|] eqn:Hs.
    + intros Hl Hle. destruct fuel' as [|fuel']; [lia|]. simpl. rewrite Hs.
      apply IH; [done|lia].
    + intros ? _. destruct fuel'; simpl; by rewrite Hs.
Qed.

Lemma while_loop_terminates st :
  ∃ fuel st', while_loop E cfg fuel st = Some st' ∧ step E cfg st' = None.
Proof.
  remember (Z.to_nat (max_pages cfg - Z.of_nat (size (visited st)))) as k eqn:Hk.
  revert st Hk.
  induction k as [k IHk] using lt_wf_ind. intros st Hk.
  remember (length (to_visit st)) as q eqn:Hq. revert st Hk Hq.
  induction q as [q IHq] using lt_wf_ind. intros st Hk Hq.
  destruct (step E cfg st) as [st1|] eqn:Hs.
  - assert (∃ fuel st', while_loop E cfg fuel st1 = Some st' ∧
                         step E cfg st' = None) as (fuel & st' & Hl & Hn).
    { apply step_Some in Hs as (url & depth & rest & Hto & Hlt & Hpass).
      rewrite Hto in Hq. simpl in Hq.
      inversion Hpass as [| |data new more Hnv]; subst st1.
      - eapply (IHq (length rest)); simpl; [lia|done..].
      - eapply (IHq (length rest)); simpl; [lia|done..].
      - eapply IHk; [|done]. simpl.
        rewrite size_union, size_singleton by set_solver. lia. }
    exists (S fuel), st'. simpl. by rewrite Hs.
  - exists 0, st. simpl. by rewrite Hs.
Qed.

Lemma while_loop_reachable fuel st st' :
  reachable E cfg st → while_loop E cfg fuel st = Some st' →
  reachable E cfg st' ∧ step E cfg st' = None.
Proof.
  revert st. induction fuel as [|fuel IH]; intros st Hst; simpl.
  - destruct (step E cfg st) eqn:Hs; [done|]. by intros [= <-].
  - destruct (step E cfg st) as [st1|] eqn:Hs; [|by intros [= <-]].
    apply IH. by eapply reachable_step.
Qed.

(** *** The order of discovery, on a static site *)

Lemma static_scrape n m url data :
  static E → scrape_webpage E n url = Some data →
  ∃ data', scrape_webpage E m url = Some data'.
Proof.
  intros Hstatic. unfold scrape_webpage. rewrite (Hstatic n m url).
  destruct (requests_get E m url) as [|r]; [done|].
  destruct (is_http_error _); [done|]. destruct (extract _ _). eauto.
Qed.

Lemma order_invariant st :
  static E → reachable E cfg st →
  (∀ e, e ∈ popped st → (e.2 ≤ max_depth cfg)%Z →
        (∃ n data, scrape_webpage E n e.1 = Some data) → e.1 ∈ visited st) ∧
  Page.url <$> results st `sublist_of` first_seen (fst <$> popped st).
Proof.
  intros Hstatic. induction 1 as [|st st' Hst IH Hstep].
  { simpl. split; [|done]. by intros e ?%elem_of_nil. }
  destruct IH as (Hdone & Hsub).
  pose proof (queue_invariant st Hst) as (Hsorted & _).
  apply step_Some in Hstep as (url & depth & rest & Hq & Hlt & Hpass).
  unfold discovered in Hsorted. rewrite Hq in Hsorted.
  inversion Hpass as [Hskip|Hnv Hd Hs|data new more Hnv Hd Hs Hnew]; subst; simpl;
    rewrite !fmap_app; simpl; rewrite first_seen_snoc.
  - split.
    + intros e [He| ->%list_elem_of_singleton]%elem_of_app; [by apply Hdone|].
      simpl. intros ? _. destruct Hskip; [done|lia].
    + case_bool_decide; [done|]. by apply sublist_inserts_r.
  - split.
    + intros e [He| ->%list_elem_of_singleton]%elem_of_app; [by apply Hdone|].
      simpl. intros _ (n & data & Hok).
      eapply static_scrape in Hok as [data' Hok]; [|done].
      by rewrite Hs in Hok.
    + case_bool_decide; [done|]. by apply sublist_inserts_r.
  - split.
    + intros e [He| ->%list_elem_of_singleton]%elem_of_app; [|set_solver].
      intros ??. apply elem_of_union. right. by apply Hdone.
    + rewrite (scrape_webpage_url _ _ _ Hs).
      rewrite bool_decide_eq_false_2.
      { by apply sublist_app. }
      rewrite elem_of_first_seen. intros ([u d] & Hu & Hin)%list_elem_of_fmap.
      simpl in Hu. subst u. apply Hnv. apply (Hdone (url, d)); [done| |by eauto].
      apply (StronglySorted_app_1_elem_of _ _ _ (url, d) (url, depth)) in Hsorted;
        [unfold by_depth in Hsorted; simpl in *; lia|done|set_solver].
Qed.

Lemma steps_reachable n st st' :
  reachable E cfg st → steps E cfg n st = Some st' → reachable E cfg st'.
Proof.
  revert st. induction n as [|n IH]; intros st Hst; simpl.
  - by intros [= <-].
  - destruct (step E cfg st) as [st1|] eqn:Hs; [|done]. simpl.
    apply IH. by eapply reachable_step.
Qed.
End crawl.

Lemma scrape_website_Some E fuel start pages depth res :
  scrape_website E fuel start pages depth = Some res →
  ∃ st, reachable E (Config start pages depth) st ∧
        step E (Config start pages depth) st = None ∧ res = results st.
Proof.
  unfold scrape_website. intros (st & Hloop & ->)%fmap_Some.
  apply while_loop_reachable in Hloop as [??]; [|constructor]. eauto.
Qed.

Lemma scrape_website_terminates E start pages depth :
  ∃ fuel res, ∀ fuel', fuel ≤ fuel' →
    scrape_website E fuel' start pages depth = Some res.
Proof.
  destruct (while_loop_terminates E (Config start pages depth)
              (initial (Config start pages depth))) as (fuel & st & Hloop & _).
  exists fuel, (results st). intros fuel' Hle. unfold scrape_website.
  by rewrite (while_loop_mono _ _ _ _ _ _ Hloop Hle).
Qed.

(** ** The small site *)

Lemma demo_after_reachable n : reachable Demo.E Demo.cfg (Demo.after n).
Proof.
  unfold Demo.after.
  destruct (steps Demo.E Demo.cfg n (initial Demo.cfg)) as [st|] eqn:Hsteps;
    simpl; [|constructor].
  eapply steps_reachable; [|done]. constructor.
Qed.

Lemma demo_final_reachable : reachable Demo.E Demo.cfg Demo.final.
Proof.
  unfold Demo.final.
  destruct (while_loop Demo.E Demo.cfg 7 (initial Demo.cfg)) as [st|] eqn:Hloop;
    simpl; [|constructor].
  eapply while_loop_reachable; [|done]. constructor.
Qed.

Lemma demo_static : static Demo.E.
Proof. by intros n m url. Qed.

(** How the crawl of the small site goes: the record of the home page,
    then those of [/b] and [/a] in the order in which the set of links
    of the home page gave them; [/f] is tried at depth 1 and again at
    depth 2. *)
Example demo_crawl :
  while_loop Demo.E Demo.cfg 7 (initial Demo.cfg) = Some Demo.final ∧
  Page.url <$> results Demo.final = [Demo.home; Demo.b; Demo.a] ∧
  scrapes Demo.final =
    [(Demo.home, 0%Z, true); (Demo.f, 1%Z, false); (Demo.b, 1%Z, true);
     (Demo.a, 1%Z, true); (Demo.c, 2%Z, false); (Demo.f, 2%Z, false)] ∧
  first_seen (fst <$> discovered Demo.final) =
    [Demo.home; Demo.f; Demo.b; Demo.a; Demo.c].
Proof. by vm_compute. Qed.

(** With room for two pages the crawl of the small site stops at two
    records and leaves an entry in the queue. *)
Example demo_two_pages :
  ∃ st, while_loop Demo.E (Config Demo.home 2 2) 3
          (initial (Config Demo.home 2 2)) = Some st ∧
        Page.url <$> results st = [Demo.home; Demo.b] ∧
        fst <$> to_visit st = [Demo.a; Demo.c; Demo.a].
Proof. eexists. by vm_compute. Qed.

(** ** The crawl loop: the claims *)

(** C1 (as amended).  At every point of a crawl the visited set is the set
    of the URLs scraped with success so far, which are the URLs of the
    records; a link that is in it is not pushed, any other link is
    appended at the tail of the queue whatever the queue holds; and
    [scrape_webpage] is never called for a URL it has scraped with
    success before. *)
Theorem visited_is_scraped E cfg st :
  reachable E cfg st →
  (∀ url, url ∈ visited st ↔ url ∈ Page.url <$> results st) ∧
  (∀ seen depth link,
     new_entries seen depth [link] =
     if bool_decide (link ∈ seen) then [] else [(link, (depth + 1)%Z)]) ∧
  (∀ st', step E cfg st = Some st' →
     visited st ⊆ visited st' ∧
     ∃ url depth rest new,
       to_visit st = (url, depth) :: rest ∧ to_visit st' = rest ++ new ∧
       ∀ e, e ∈ new → e.1 ∉ visited st') ∧
  each_after (fun before call => call.1.1 ∉ (fst <$> successes before))
    (scrapes st).
Proof.
  intros Hst. split_and!.
  - by destruct (visited_invariant E cfg st Hst) as (? & _).
  - intros seen depth link. unfold new_entries. simpl.
    rewrite bool_decide_not. by destruct (bool_decide (link ∈ seen)).
  - intros st' (url & depth & rest & Hq & _ & Hpass)%step_Some.
    inversion Hpass as [| |data new more ??? Hnew]; subst; simpl.
    + split; [done|]. exists url, depth, rest, []. rewrite app_nil_r.
      split_and!; [done..|]. by intros ? ?%elem_of_nil.
    + split; [done|]. exists url, depth, rest, []. rewrite app_nil_r.
      split_and!; [done..|]. by intros ? ?%elem_of_nil.
    + split; [set_solver|]. exists url, depth, rest, new.
      split_and!; [done..|].
      destruct Hnew as [[-> _]|(_ & _ & ->)]; [by intros ? ?%elem_of_nil|].
      by intros e (_ & _ & ?)%new_entries_spec.
  - intros before call after Heq.
    by apply (scrapes_invariant E cfg st Hst before call after Heq).
Qed.

Lemma visited_is_scraped_witness :
  reachable Demo.E Demo.cfg Demo.final ∧
  (Demo.a ∈ visited Demo.final ↔ Demo.a ∈ Page.url <$> results Demo.final).
Proof.
  split; [apply demo_final_reachable|].
  apply (visited_is_scraped Demo.E Demo.cfg Demo.final demo_final_reachable).
Defined.

(** C1, as it is stated, fails on the small site.  After three passes
    [/a] is in the queue twice and not in the visited set; over the whole
    crawl [/f], whose fetch fails, is requested twice, and every page
    scraped with success above the depth bound is requested twice, once
    for its text and once for its links. *)
Lemma visited_set_counterexample :
  steps Demo.E Demo.cfg 3 (initial Demo.cfg) = Some (Demo.after 3) ∧
  to_visit (Demo.after 3) = [(Demo.a, 1%Z); (Demo.c, 2%Z); (Demo.a, 2%Z)] ∧
  (Demo.a ∉ visited (Demo.after 3)) ∧
  while_loop Demo.E Demo.cfg 7 (initial Demo.cfg) = Some Demo.final ∧
  scrapes Demo.final =
    [(Demo.home, 0%Z, true); (Demo.f, 1%Z, false); (Demo.b, 1%Z, true);
     (Demo.a, 1%Z, true); (Demo.c, 2%Z, false); (Demo.f, 2%Z, false)] ∧
  gets Demo.final =
    [Demo.home; Demo.home; Demo.f; Demo.b; Demo.b; Demo.a; Demo.a; Demo.c;
     Demo.f] ∧
  Demo.f ∉ visited Demo.final ∧
  ¬ (∀ url, url ∈ (fst <$> to_visit (Demo.after 3)) →
            url ∈ visited (Demo.after 3)) ∧
  ¬ NoDup (fst <$> to_visit (Demo.after 3)) ∧
  ¬ NoDup ((fun call => call.1.1) <$> scrapes Demo.final) ∧
  ¬ NoDup (gets Demo.final).
Proof.
  assert (Demo.a ∉ visited (Demo.after 3)) as Ha
    by (apply (bool_decide_unpack _); by vm_compute).
  split_and!; try (by vm_compute); try done;
    try (apply (bool_decide_unpack _); by vm_compute).
  intros Hall. apply Ha, Hall. by apply (bool_decide_unpack _); vm_compute.
Qed.

(** C2.  The crawl returns, with at most [max_pages] records; at every
    point of it there are at most [max_pages] records, every call of
    [scrape_webpage] is made while fewer than [max_pages] pages have been
    scraped with success, and once there are [max_pages] records the loop
    is left, whatever the queue still holds. *)
Theorem page_bound E start pages depth :
  (1 ≤ pages)%Z →
  (∃ fuel res, ∀ fuel', fuel ≤ fuel' →
     scrape_website E fuel' start pages depth = Some res) ∧
  (∀ fuel res, scrape_website E fuel start pages depth = Some res →
     (Z.of_nat (length res) ≤ pages)%Z) ∧
  (∀ st, reachable E (Config start pages depth) st →
     (Z.of_nat (length (results st)) ≤ pages)%Z ∧
     each_after
       (fun before _ => (Z.of_nat (length (successes before)) < pages)%Z)
       (scrapes st) ∧
     (Z.of_nat (length (results st)) = pages →
      step E (Config start pages depth) st = None)).
Proof.
  intros Hpages.
  assert (∀ st, reachable E (Config start pages depth) st →
            (Z.of_nat (length (results st)) ≤ pages)%Z) as Hbound.
  { induction 1 as [|st st' Hst IH Hstep]; [simpl; lia|].
    pose proof (visited_invariant _ _ _ Hst) as (_ & _ & Hsz & _).
    apply step_Some in Hstep as (url & d & rest & _ & Hlt & Hpass).
    simpl in Hlt. inversion Hpass; subst; simpl; rewrite ?length_app; simpl; lia. }
  split_and!.
  - apply scrape_website_terminates.
  - intros fuel res (st & Hst & _ & ->)%scrape_website_Some. by apply Hbound.
  - intros st Hst. split_and!; [by apply Hbound| |].
    + intros before call after Heq.
      by apply (scrapes_invariant _ _ st Hst before call after Heq).
    + intros Hfull. apply step_None. right. simpl.
      pose proof (visited_invariant _ _ _ Hst) as (_ & _ & Hsz & _). lia.
Qed.

Lemma page_bound_witness :
  (1 ≤ 2)%Z ∧
  ∃ res, scrape_website Demo.E 3 Demo.home 2 2 = Some res ∧
         (Z.of_nat (length res) ≤ 2)%Z.
Proof.
  split; [lia|].
  destruct (scrape_website Demo.E 3 Demo.home 2 2) as [res|] eqn:Hres;
    [|by vm_compute in Hres].
  exists res. split; [done|].
  destruct (page_bound Demo.E Demo.home 2 2) as (_ & Hlen & _); [lia|].
  by apply (Hlen 3).
Defined.

(** C3.  With [max_depth >= 0], no entry ever put in the queue has a
    depth above [max_depth], and a URL that every chain of links from the
    start reaches in more than [max_depth] links, or never, has no
    record. *)
Theorem depth_bound E cfg st :
  (0 ≤ max_depth cfg)%Z → reachable E cfg st →
  (∀ e, e ∈ discovered st → (e.2 ≤ max_depth cfg)%Z) ∧
  (∀ url, (∀ d, link_path E cfg url d → (max_depth cfg < d)%Z) →
     url ∉ Page.url <$> results st).
Proof.
  intros Hdepth Hst.
  pose proof (queue_invariant E cfg st Hst) as (_ & _ & Hbound & Hsub & Hpath).
  split.
  - intros e He%Hbound. lia.
  - intros url Hfar Hin.
    pose proof (visited_invariant E cfg st Hst) as (_ & _ & _ & Hf & _).
    rewrite <-Hf in Hin. apply list_elem_of_fmap in Hin as ([u d] & -> & Hin).
    assert ((u, d) ∈ popped st) as Hpop.
    { eapply elem_of_sublist; [done|]. etrans; [apply successes_sublist|done]. }
    assert ((u, d) ∈ discovered st) as Hdisc by (apply elem_of_app; by left).
    apply Hbound in Hdisc as Hd. apply Hpath in Hdisc. apply Hfar in Hdisc.
    simpl in *. lia.
Qed.

Lemma depth_bound_witness :
  (0 ≤ max_depth Demo.cfg)%Z ∧ reachable Demo.E Demo.cfg Demo.final ∧
  (Demo.c ∉ (Page.url <$> results (Demo.after 2))) ∧
  ∀ e, e ∈ discovered Demo.final → (e.2 ≤ max_depth Demo.cfg)%Z.
Proof.
  split_and!; [by vm_compute|apply demo_final_reachable| |].
  - apply (bool_decide_unpack _). by vm_compute.
  - apply (depth_bound Demo.E Demo.cfg Demo.final);
      [by vm_compute|apply demo_final_reachable].
Defined.





(** The URLs of the records are those of entries taken from the queue. *)
Lemma results_popped E cfg st url :
  reachable E cfg st → url ∈ Page.url <$> results st →
  ∃ depth, (url, depth) ∈ popped st.
Proof.
  intros Hst Hin.
  destruct (visited_invariant E cfg st Hst) as (_ & _ & _ & Hf & _).
  destruct (queue_invariant E cfg st Hst) as (_ & _ & _ & Hsub & _).
  rewrite <-Hf in Hin. apply list_elem_of_fmap in Hin as ([u d] & -> & Hin).
  exists d. eapply elem_of_sublist; [done|].
  etrans; [apply successes_sublist|done].
Qed.



Lemma scrape_webpage_length E n url data :
  scrape_webpage E n url = Some data →
  Page.length data = Z.of_nat (length (Page.content data)).
Proof.
  unfold scrape_webpage. destruct (requests_get E n url); [done|].
  destruct (is_http_error _); [done|]. destruct (extract _ _).
  by intros [= <-].
Qed.

(** C10.  A record of [scrape_webpage], and so every record of a crawl,
    has for length the number of characters of its content.  A record of
    [scrape_url] has for content the first 15000 characters of the
    extracted text and for length the length of that text: its length is
    at least the number of characters of its content, and equal to it
    exactly when the text has at most 15000 characters. *)
Theorem length_of_content E n url r :
  requests_get E n url = Return r → is_http_error (status_code r) = false →
  let text := (extract url (soup r)).2 in
  (∃ data, scrape_webpage E n url = Some data ∧
     Page.content data = text ∧
     Page.length data = Z.of_nat (length (Page.content data))) ∧
  (∃ title content len,
     scrape_url E n url = Success url title content len ∧
     content = take (Z.to_nat 15000) text ∧ len = Z.of_nat (length text) ∧
     (Z.of_nat (length content) ≤ len)%Z ∧
     (len = Z.of_nat (length content) ↔ (Z.of_nat (length text) ≤ 15000)%Z)) ∧
  (∀ cfg st, reachable E cfg st →
     ∀ data, data ∈ results st →
       Page.length data = Z.of_nat (length (Page.content data))).
Proof.
  intros Hget Hok text. split_and!.
  - unfold scrape_webpage. rewrite Hget, Hok. subst text.
    destruct (extract url (soup r)) as [title txt]. by eexists.
  - unfold scrape_url. rewrite Hget, Hok. subst text.
    destruct (extract url (soup r)) as [title txt]. simpl.
    exists title, (take (Z.to_nat 15000) txt), (Z.of_nat (length txt)).
    rewrite length_take. split_and!; [done..|lia|lia].
  - intros cfg st Hst data Hdata.
    destruct (visited_invariant E cfg st Hst) as (_ & _ & _ & _ & Hrec).
    destruct (Hrec data Hdata) as [m Hm]. by eapply scrape_webpage_length.
Qed.

Lemma length_of_content_witness :
  requests_get Demo.E 0 Demo.home =
    Return (Demo.page "Home" ["/a"; "/b"; "https://other.test/x"; "/f"]%string) ∧
  ∃ data, scrape_webpage Demo.E 0 Demo.home = Some data ∧
          Page.length data = Z.of_nat (length (Page.content data)).
Proof.
  split; [by vm_compute|].
  destruct (length_of_content Demo.E 0 Demo.home
              (Demo.page "Home" ["/a"; "/b"; "https://other.test/x"; "/f"]%string))
    as ((data & Hdata & _ & Hlen) & _); [by vm_compute..|].
  by exists data.
Defined.

(** ** Links *)

Lemma add_links_Return E base_url hrefs links result :
  add_links E base_url hrefs links = Return result →
  ∀ link, link ∈ result ↔
    link ∈ links ∨ ∃ href, href ∈ hrefs ∧ same_origin_target E base_url href link.
Proof.
  revert links. induction hrefs as [|href hrefs IH]; intros links; simpl.
  - intros [= <-] link. split; [by left|]. intros [?|(? & []%elem_of_nil & _)]. done.
  - destruct (urljoin E base_url href) as [|full_url] eqn:Hjoin; [done|].
    destruct (urlparse_netloc E full_url) as [|netloc] eqn:Hnet; [done|].
    destruct (urlparse_netloc E base_url) as [|base_netloc] eqn:Hbase; [done|].
    case_decide as Heq.
    + subst base_netloc. intros Hadd link. rewrite (IH _ Hadd link). split.
      * intros [[->%elem_of_singleton|Hin]%elem_of_union|(h & Hh & Ht)].
        -- right. exists href. split; [left|]. by exists full_url, netloc.
        -- by left.
        -- right. exists h. split; [by right|done].
      * intros [Hin|(h & [->|Hh]%elem_of_cons & Ht)].
        -- left. set_solver.
        -- left. destruct Ht as (f & n & Hf & _ & _ & ->).
           rewrite Hjoin in Hf. injection Hf as <-. set_solver.
        -- right. by exists h.
    + intros Hadd link. rewrite (IH _ Hadd link). split.
      * intros [Hin|(h & Hh & Ht)]; [by left|].
        right. exists h. split; [by right|done].
      * intros [Hin|(h & [->|Hh]%elem_of_cons & Ht)]; [by left| |].
        -- destruct Ht as (f & n & Hf & Hn & Hb & _).
           rewrite Hjoin in Hf. injection Hf as <-.
           rewrite Hnet in Hn. rewrite Hbase in Hb. congruence.
        -- right. by exists h.
Qed.

Lemma add_links_resolves E base_url hrefs links :
  Forall (resolves E base_url) hrefs →
  ∃ result, add_links E base_url hrefs links = Return result.
Proof.
  intros Hall. revert links.
  induction Hall as [|href hrefs (f & n & b & Hf & Hn & Hb) _ IH];
    intros links; simpl; [by eexists|].
  rewrite Hf, Hn, Hb. case_decide; apply IH.
Qed.

Lemma add_links_Raise E base_url hrefs links :
  ¬ Forall (resolves E base_url) hrefs →
  ∃ e, add_links E base_url hrefs links = Raise e.
Proof.
  revert links. induction hrefs as [|href hrefs IH]; intros links Hnot; simpl.
  - by destruct Hnot.
  - destruct (urljoin E base_url href) as [|full_url] eqn:Hjoin; [by eexists|].
    destruct (urlparse_netloc E full_url) as [|netloc] eqn:Hnet; [by eexists|].
    destruct (urlparse_netloc E base_url) as [|base_netloc] eqn:Hbase; [by eexists|].
    assert (¬ Forall (resolves E base_url) hrefs) as Hrest.
    { intros Hrest. apply Hnot. constructor; [|done].
      by exists full_url, netloc, base_netloc. }
    case_decide; by apply IH.
Qed.

Lemma split_hash_0_no_hash s : 35%N ∉ split_hash_0 s.
Proof.
  induction s as [|c s IH]; simpl; [by intros ?%elem_of_nil|].
  case_bool_decide; [by intros ?%elem_of_nil|].
  by intros [?|?]%elem_of_cons.
Qed.

Lemma split_hash_0_id s : 35%N ∉ s → split_hash_0 s = s.
Proof.
  induction s as [|c s IH]; simpl; [done|].
  intros [Hc Hs]%not_elem_of_cons.
  rewrite bool_decide_eq_false_2 by done. by rewrite IH.
Qed.

Lemma split_hash_0_fragment page fragment :
  35%N ∉ page → split_hash_0 (page ++ 35%N :: fragment) = page.
Proof.
  induction page as [|c page IH]; simpl; [done|].
  intros [Hc Hpage]%not_elem_of_cons.
  rewrite bool_decide_eq_false_2 by done. by rewrite IH.
Qed.

Lemma elem_of_anchor_hrefs soup href :
  href ∈ anchor_hrefs soup ↔
  ∃ attrs contents,
    Tag (py "a") attrs contents ∈ descendants soup ∧
    attr (py "href") (Tag (py "a") attrs contents) = Some href.
Proof.
  unfold anchor_hrefs, find_all. rewrite list_elem_of_omap. split.
  - intros (t & [Hin Hname]%list_elem_of_In%filter_In & Hattr).
    destruct t as [| |name attrs contents]; try done. simpl in Hname.
    apply bool_decide_eq_true, list_elem_of_singleton in Hname as ->.
    exists attrs, contents. by rewrite list_elem_of_In.
  - intros (attrs & contents & Hin & Hattr). eexists. split; [|done].
    apply list_elem_of_In, filter_In. split; [by apply list_elem_of_In|].
    reflexivity.
Qed.

Lemma page_links_sound E base_url doc link :
  link ∈ page_links E base_url doc →
  ∃ href, href ∈ anchor_hrefs doc ∧ same_origin_target E base_url href link.
Proof.
  unfold page_links.
  destruct (add_links E base_url (anchor_hrefs doc) ∅) as [|result] eqn:Hadd;
    [by intros ?%elem_of_empty|].
  intros Hin. apply (add_links_Return _ _ _ _ _ Hadd) in Hin as [Hin|Hin]; [|done].
  by apply elem_of_empty in Hin.
Qed.

(** Every entry of the queue but the first comes from the link set of
    a page that was requested, computed with the start URL as base. *)
Lemma discovered_origin E cfg st e :
  reachable E cfg st → e ∈ discovered st →
  e = (start_url cfg, 0%Z) ∨
  ∃ n url r href,
    requests_get E n url = Return r ∧ href ∈ anchor_hrefs (soup r) ∧
    same_origin_target E (start_url cfg) href e.1.
Proof.
  intros Hst He.
  destruct (queue_invariant E cfg st Hst) as (_ & _ & _ & _ & Hpath).
  apply Hpath in He. destruct e as [u d]. simpl in *.
  inversion He as [|url d' link Hprev [n Hlink]]; subst; [by left|]. right.
  unfold get_links in Hlink.
  destruct (requests_get E n url) as [|r] eqn:Hget;
    [by apply elem_of_empty in Hlink|].
  apply page_links_sound in Hlink as (href & Hhref & Htarget).
  by exists n, url, r, href.
Qed.

(** C6 (as amended).  The link set of a page has only hrefs of its anchor
    elements, each resolved against the base URL given, kept when its
    network location is that of the base URL, and cut at the first number
    sign, so that it holds no fragment and two links that differ by
    their fragments are one; when every such href resolves without an
    exception it has all of them, and when one does not it is empty.
    In a crawl the base URL is the start URL whatever page the links are
    on, and every entry of the queue but the first one is such a link. *)
Theorem link_set E base_url doc :
  (∀ link, link ∈ page_links E base_url doc →
     ∃ href, href ∈ anchor_hrefs doc ∧
             same_origin_target E base_url href link) ∧
  (Forall (resolves E base_url) (anchor_hrefs doc) →
   ∀ link, link ∈ page_links E base_url doc ↔
     ∃ href, href ∈ anchor_hrefs doc ∧
             same_origin_target E base_url href link) ∧
  (¬ Forall (resolves E base_url) (anchor_hrefs doc) →
   page_links E base_url doc = ∅) ∧
  (∀ href, href ∈ anchor_hrefs doc ↔
     ∃ attrs contents,
       Tag (py "a") attrs contents ∈ descendants doc ∧
       attr (py "href") (Tag (py "a") attrs contents) = Some href) ∧
  (∀ link, link ∈ page_links E base_url doc → 35%N ∉ link) ∧
  (∀ page fragment, 35%N ∉ page →
     split_hash_0 (page ++ 35%N :: fragment) = page) ∧
  (∀ cfg st e, reachable E cfg st → e ∈ discovered st →
     e = (start_url cfg, 0%Z) ∨
     ∃ n url r href,
       requests_get E n url = Return r ∧ href ∈ anchor_hrefs (soup r) ∧
       same_origin_target E (start_url cfg) href e.1).
Proof.
  split_and!.
  - apply page_links_sound.
  - intros Hall link. split; [apply page_links_sound|].
    unfold page_links.
    destruct (add_links_resolves E base_url _ ∅ Hall) as [result Hadd].
    rewrite Hadd. intros Hin. apply (add_links_Return _ _ _ _ _ Hadd). by right.
  - intros Hnot. unfold page_links.
    by destruct (add_links_Raise E base_url _ ∅ Hnot) as [e ->].
  - apply elem_of_anchor_hrefs.
  - intros link (href & _ & f & n & _ & _ & _ & ->)%page_links_sound.
    apply split_hash_0_no_hash.
  - apply split_hash_0_fragment.
  - intros cfg st e. apply discovered_origin.
Qed.

Lemma link_set_witness :
  Forall (resolves Demo.E Demo.home)
    (anchor_hrefs (soup (Demo.page "A" ["/b"; "/f"; "#top"]%string))) ∧
  Demo.b ∈ page_links Demo.E Demo.home
             (soup (Demo.page "A" ["/b"; "/f"; "#top"]%string)).
Proof.
  assert (Forall (resolves Demo.E Demo.home)
            (anchor_hrefs (soup (Demo.page "A" ["/b"; "/f"; "#top"]%string))))
    as Hall.
  { repeat constructor; eexists _, _, _; by vm_compute. }
  split; [done|].
  apply (link_set Demo.E Demo.home
           (soup (Demo.page "A" ["/b"; "/f"; "#top"]%string))); [done|].
  exists (py "/b"). split; [by apply (bool_decide_unpack _); vm_compute|].
  eexists _, _. by vm_compute.
Defined.

(** C6, as it is stated, fails on a page with an href that does not
    resolve: the anchor before it has an href that resolves to a URL of
    the same network location as the base URL, and the link set is
    empty. *)
Lemma malformed_href_counterexample :
  py "/a" ∈ anchor_hrefs Demo.broken ∧
  same_origin_target Demo.E Demo.home (py "/a") Demo.a ∧
  urljoin Demo.E Demo.home (py "http://[") = Raise (py "Invalid IPv6 URL") ∧
  page_links Demo.E Demo.home Demo.broken = ∅ ∧
  ¬ (∀ link,
       (∃ href, href ∈ anchor_hrefs Demo.broken ∧
                same_origin_target Demo.E Demo.home href link) →
       link ∈ page_links Demo.E Demo.home Demo.broken).
Proof.
  assert (py "/a" ∈ anchor_hrefs Demo.broken) as Hhref
    by (apply (bool_decide_unpack _); by vm_compute).
  assert (same_origin_target Demo.E Demo.home (py "/a") Demo.a) as Htarget
    by (eexists _, _; by vm_compute).
  assert (page_links Demo.E Demo.home Demo.broken = ∅) as Hempty
    by (by vm_compute).
  split_and!; [done|done|by vm_compute|done|].
  intros Hall. specialize (Hall Demo.a). rewrite Hempty in Hall.
  apply (not_elem_of_empty (C:=gset str) Demo.a), Hall.
  by exists (py "/a").
Qed.

(** When the start URL has no fragment no URL in the queue has one, and
    no two records have the same URL even with fragments set aside.  The
    start URL is used as it is given: started from the home page of the
    small site with a fragment, the crawl comes back to the home page
    under its URL without the fragment and records it again. *)
Lemma records_without_fragment E cfg st :
  35%N ∉ start_url cfg → reachable E cfg st →
  (∀ e, e ∈ discovered st → 35%N ∉ e.1) ∧
  NoDup (split_hash_0 <$> (Page.url <$> results st)).
Proof.
  intros Hstart Hst.
  assert (∀ e, e ∈ discovered st → 35%N ∉ e.1) as Hclean.
  { intros e He.
    destruct (discovered_origin E cfg st e Hst He)
      as [-> |(n & url & r & href & _ & _ & f & nl & _ & _ & _ & ->)];
      [done|apply split_hash_0_no_hash]. }
  split; [done|].
  replace (split_hash_0 <$> (Page.url <$> results st))
    with (Page.url <$> results st).
  { by destruct (visited_invariant E cfg st Hst) as (_ & ? & _). }
  symmetry. rewrite <-(list_fmap_id (Page.url <$> results st)) at 2.
  apply Forall_fmap_ext_1, Forall_forall. intros url Hurl.
  destruct (results_popped E cfg st url Hst Hurl) as [depth Hpop].
  apply split_hash_0_id, (Hclean (url, depth)), elem_of_app. by left.
Qed.

Example start_url_fragment :
  Page.url <$> results
    (default (initial Demo.cfg_fragment)
       (while_loop Demo.E Demo.cfg_fragment 9 (initial Demo.cfg_fragment))) =
  [py "https://ex.test/#top"; Demo.b; Demo.a; Demo.home] ∧
  split_hash_0 (py "https://ex.test/#top") = Demo.home.
Proof. by vm_compute. Qed.

(** ** The structured format *)

Module JsonFacts.
Import Json JsonShape.

(** *** Integers *)

Lemma chars_uint_chars d : chars_uint (uint_chars d) = d.
Proof. induction d; simpl; by f_equal. Qed.

Lemma span_digits_uint_chars d rest :
  (∀ c r, rest = c :: r → is_digit c = false) →
  span_digits (uint_chars d ++ rest) = (uint_chars d, rest).
Proof.
  intros Hrest. induction d; simpl; rewrite ?IHd; try done.
  destruct rest as [|c r]; simpl; [done|]. by rewrite (Hrest c r).
Qed.

Lemma to_uint_no_leading_zero p d : Pos.to_uint p ≠ Decimal.D0 d.
Proof.
  intros Hp.
  pose proof (DecimalPos.Unsigned.to_of (Pos.to_uint p)) as Hnorm.
  rewrite DecimalPos.Unsigned.of_to in Hnorm. simpl in Hnorm. rewrite Hp in Hnorm.
  unfold Decimal.unorm in Hnorm. simpl in Hnorm.
  destruct (Decimal.nzhead d) eqn:Hd; try by (symmetry in Hnorm; revert Hnorm; rewrite <-Hd; apply nzhead_nonzero).
  injection Hnorm as ->. by apply (DecimalPos.Unsigned.to_uint_nonzero p).
Qed.

Lemma to_uint_chars p rest :
  delimited rest →
  ∃ c cs, uint_chars (Pos.to_uint p) = c :: cs ∧
    c ∈ [49; 50; 51; 52; 53; 54; 55; 56; 57]%N ∧
    span_digits (cs ++ rest) = (cs, rest) ∧
    chars_uint (c :: cs) = Pos.to_uint p.
Proof.
  intros (c0 & r & -> & Hc0).
  assert (∀ d, span_digits (uint_chars d ++ c0 :: r) = (uint_chars d, c0 :: r))
    as Hspan.
  { intros d. apply span_digits_uint_chars. intros c r' [= <- <-].
    by destruct Hc0 as [-> | ->]. }
  pose proof (chars_uint_chars (Pos.to_uint p)) as Hback.
  pose proof (DecimalPos.Unsigned.to_uint_nonnil p) as Hnil.
  pose proof (to_uint_no_leading_zero p) as Hzero.
  destruct (Pos.to_uint p) as [|d|d|d|d|d|d|d|d|d|d]; [done|by destruct (Hzero d)|..];
    eexists _, _; (split; [reflexivity|]); (split; [set_solver|]);
    (split; [apply Hspan|exact Hback]).
Qed.

Lemma float_follows_delimited rest : delimited rest → float_follows rest = false.
Proof. by intros (c & r & -> & [-> | ->]). Qed.

Lemma match_number_int_repr z rest :
  delimited rest → match_number (int_repr z ++ rest) = Some (PInt z, rest).
Proof.
  intros Hrest. pose proof (float_follows_delimited rest Hrest) as Hfloat.
  destruct z as [|p|p]; unfold int_repr; simpl Z.to_int; cbv iota.
  - unfold match_number. simpl. by rewrite Hfloat.
  - destruct (to_uint_chars p rest Hrest) as (c & cs & Heq & Hc & Hspan & Hback).
    rewrite Heq.
    replace (Z.pos p) with (Z.of_N (N.of_uint (chars_uint (c :: cs))))
      by (by rewrite Hback, DecimalPos.Unsigned.of_to).
    clear Heq Hback. unfold match_number.
    repeat (apply elem_of_cons in Hc as [-> | Hc];
            [simpl; rewrite Hspan; simpl; by rewrite Hfloat|]).
    by apply elem_of_nil in Hc.
  - destruct (to_uint_chars p rest Hrest) as (c & cs & Heq & Hc & Hspan & Hback).
    rewrite Heq.
    replace (Z.neg p) with (- Z.of_N (N.of_uint (chars_uint (c :: cs))))%Z
      by (by rewrite Hback, DecimalPos.Unsigned.of_to).
    clear Heq Hback. unfold match_number.
    repeat (apply elem_of_cons in Hc as [-> | Hc];
            [simpl; rewrite Hspan; simpl; by rewrite Hfloat|]).
    by apply elem_of_nil in Hc.
Qed.

(** *** Strings *)

Lemma below_32 (c : N) :
  (c < 32)%N →
  c ∈ [0; 1; 2; 3; 4; 5; 6; 7; 8; 9; 10; 11; 12; 13; 14; 15; 16; 17; 18; 19;
       20; 21; 22; 23; 24; 25; 26; 27; 28; 29; 30; 31]%N.
Proof.
  intros Hc. rewrite <-(N2Nat.id c).
  assert (N.to_nat c < 32) as Hlt by lia. revert Hlt.
  generalize (N.to_nat c). intros n Hn.
  do 32 (destruct n as [|n]; [by apply (bool_decide_unpack _)|]). lia.
Qed.

Lemma scanstring_escape c tail acc :
  scanstring (escape c ++ tail) acc = scanstring tail (c :: acc).
Proof.
  destruct (decide (c < 32)%N) as [Hc|Hc].
  - apply below_32 in Hc.
    repeat (apply elem_of_cons in Hc as [-> | Hc]; [reflexivity|]).
    by apply elem_of_nil in Hc.
  - unfold escape.
    destruct (decide (c = 34%N)) as [-> |H34]; [reflexivity|].
    destruct (decide (c = 92%N)) as [-> |H92]; [reflexivity|].
    rewrite !bool_decide_eq_false_2 by lia.
    replace (c <? 32)%N with false by (symmetry; apply N.ltb_ge; lia).
    simpl. rewrite !bool_decide_eq_false_2 by done.
    by replace (c <? 32)%N with false by (symmetry; apply N.ltb_ge; lia).
Qed.

Lemma scanstring_encoded s rest acc :
  scanstring (flat_map escape s ++ 34%N :: rest) acc =
  Some (reverse acc ++ s, rest).
Proof.
  revert acc. induction s as [|c s IH]; intros acc; simpl flat_map.
  - simpl. by rewrite app_nil_r.
  - rewrite <-app_assoc, scanstring_escape, IH, reverse_cons.
    by rewrite <-app_assoc.
Qed.

(** *** White space *)

Lemma skip_ws_spaces n rest :
  skip_ws (concat (replicate n [32; 32]%N) ++ rest) = skip_ws rest.
Proof. induction n as [|n IH]; [done|]. simpl. exact IH. Qed.

Lemma skip_ws_newline_indent level rest :
  skip_ws (newline_indent level ++ rest) = skip_ws rest.
Proof. unfold newline_indent. simpl. apply skip_ws_spaces. Qed.

(** *** Values that are a string or an integer *)

Lemma scan_once_number fuel c s :
  c ∈ [45; 48; 49; 50; 51; 52; 53; 54; 55; 56; 57]%N →
  scan_once (S fuel) (c :: s) = match_number (c :: s).
Proof.
  intros Hc.
  repeat (apply elem_of_cons in Hc as [-> | Hc]; [reflexivity|]).
  by apply elem_of_nil in Hc.
Qed.

Lemma int_repr_head z :
  ∃ c cs, int_repr z = c :: cs ∧
          c ∈ [45; 48; 49; 50; 51; 52; 53; 54; 55; 56; 57]%N.
Proof.
  destruct z as [|p|p]; unfold int_repr; simpl.
  - eexists _, _. split; [done|]. set_solver.
  - destruct (to_uint_chars p [LF]) as (c & cs & -> & Hc & _).
    { eexists _, _. eauto. }
    eexists _, _. split; [done|]. set_solver.
  - eexists _, _. split; [done|]. set_solver.
Qed.

Lemma scan_once_scalar fuel level o rest :
  scalar o → delimited rest →
  scan_once (S fuel) (iterencode level o ++ rest) = Some (o, rest).
Proof.
  destruct o as [| |z|s| |]; try done; intros _ Hrest.
  - destruct (int_repr_head z) as (c & cs & Heq & Hc). simpl iterencode.
    rewrite <-(match_number_int_repr z rest Hrest), Heq.
    by apply scan_once_number.
  - simpl iterencode. unfold encode_basestring. simpl.
    rewrite <-app_assoc. simpl. by rewrite scanstring_encoded.
Qed.

Lemma skip_ws_scalar level o rest :
  scalar o → skip_ws (iterencode level o ++ rest) = iterencode level o ++ rest.
Proof.
  destruct o as [| |z|s| |]; try done; intros _.
  destruct (int_repr_head z) as (c & cs & Heq & Hc). simpl iterencode.
  rewrite Heq.
  repeat (apply elem_of_cons in Hc as [-> | Hc]; [reflexivity|]).
  by apply elem_of_nil in Hc.
Qed.

(** *** Dictionaries of strings and integers *)

Lemma scan_once_object fuel level tail :
  scan_once (S fuel) (123%N :: newline_indent level ++ 34%N :: tail) =
  object_loop fuel tail [].
Proof.
  change (scan_once (S fuel) (123%N :: newline_indent level ++ 34%N :: tail))
    with (match skip_ws (newline_indent level ++ 34%N :: tail) with
          | 125%N :: rest => Some (PDict [], rest)
          | 34%N :: s2 => object_loop fuel s2 []
          | _ => None
          end).
  by rewrite skip_ws_newline_indent.
Qed.

Lemma object_loop_eq fuel s acc :
  object_loop (S fuel) s acc =
  match scanstring s [] with
  | None => None
  | Some (key, s1) =>
      match skip_ws s1 with
      | 58%N :: s2 =>
          match scan_once fuel (skip_ws s2) with
          | None => None
          | Some (value, s3) =>
              match skip_ws s3 with
              | 125%N :: rest =>
                  Some (PDict (dict_of (reverse ((key, value) :: acc))), rest)
              | 44%N :: s4 =>
                  match skip_ws s4 with
                  | 34%N :: s5 => object_loop fuel s5 ((key, value) :: acc)
                  | _ => None
                  end
              | _ => None
              end
          end
      | _ => None
      end
  end.
Proof. reflexivity. Qed.

Lemma join_cons_cons (sep p q : str) l :
  join sep (p :: q :: l) = p ++ sep ++ join sep (q :: l).
Proof. reflexivity. Qed.

Lemma members_text level kv more rest :
  join (44%N :: newline_indent (S level)) (member level <$> kv :: more)
  ++ newline_indent level ++ 125%N :: rest =
  34%N :: members_tail level (kv :: more) rest.
Proof.
  revert kv. induction more as [|kv' more IH]; intros kv.
  - cbn [fmap list_fmap join members_tail]. unfold member, encode_basestring.
    cbn [app]. by rewrite <-!app_assoc.
  - rewrite fmap_cons, fmap_cons, join_cons_cons, <-fmap_cons, <-!app_assoc.
    cbn [app]. rewrite IH. cbn [members_tail].
    unfold member, encode_basestring. cbn [app]. by rewrite <-!app_assoc.
Qed.

Lemma dict_text level items rest :
  items ≠ [] →
  iterencode level (PDict items) ++ rest =
  123%N :: newline_indent (S level) ++ 34%N :: members_tail level items rest.
Proof.
  destruct items as [|kv more]; [done|]. intros _.
  change (iterencode level (PDict (kv :: more)))
    with (block 123 125 level (member level <$> kv :: more)).
  rewrite <-members_text. unfold block. rewrite fmap_cons.
  cbn [app]. by rewrite <-!app_assoc.
Qed.

Lemma object_loop_members level items rest acc fuel :
  items ≠ [] → Forall (fun kv => scalar kv.2) items → length items < fuel →
  object_loop fuel (members_tail level items rest) acc =
  Some (PDict (dict_of (reverse acc ++ items)), rest).
Proof.
  revert acc fuel. induction items as [|[k v] more IH]; [done|].
  intros acc fuel _ [Hv Hmore]%Forall_cons Hfuel. simpl in Hv, Hfuel.
  destruct fuel as [|fuel]; [lia|]. rewrite object_loop_eq.
  cbn [members_tail fst snd].
  change ([34; 58; 32]%N ++ ?s) with (34%N :: 58%N :: 32%N :: s).
  rewrite scanstring_encoded. change (reverse [] ++ k) with k. cbv iota beta.
  change (skip_ws (58%N :: 32%N :: ?s)) with (58%N :: 32%N :: s). cbv iota.
  change (skip_ws (32%N :: ?s)) with (skip_ws s).
  rewrite skip_ws_scalar by done.
  destruct fuel as [|fuel]; [destruct more; simpl in Hfuel; lia|].
  destruct more as [|kv' more].
  - rewrite scan_once_scalar; [|done|by eexists _, _; eauto].
    rewrite skip_ws_newline_indent.
    change (skip_ws (125%N :: rest)) with (125%N :: rest). cbv iota.
    by rewrite reverse_cons.
  - rewrite scan_once_scalar; [|done|by eexists _, _; eauto].
    change (skip_ws (44%N :: ?s)) with (44%N :: s). cbv iota.
    rewrite skip_ws_newline_indent.
    change (skip_ws (34%N :: ?s)) with (34%N :: s). cbv iota.
    rewrite IH; [|done|done|simpl in *; lia].
    by rewrite reverse_cons, <-app_assoc.
Qed.

(** *** Lists of records *)

Lemma scan_once_record fuel data rest :
  6 ≤ fuel → delimited rest →
  scan_once (S fuel) (iterencode 1 (to_dict data) ++ rest) =
  Some (to_dict data, rest).
Proof.
  intros Hfuel Hrest. unfold to_dict.
  rewrite dict_text, scan_once_object by done.
  rewrite object_loop_members; [done|done| |simpl; lia].
  by repeat constructor.
Qed.

Lemma scan_once_array fuel tail :
  scan_once (S fuel) (91%N :: newline_indent 1 ++ 123%N :: tail) =
  array_loop fuel (123%N :: tail) [].
Proof. reflexivity. Qed.

Lemma array_loop_eq fuel s acc :
  array_loop (S fuel) s acc =
  match scan_once fuel s with
  | None => None
  | Some (value, s1) =>
      match skip_ws s1 with
      | 93%N :: rest => Some (PList (reverse (value :: acc)), rest)
      | 44%N :: s2 => array_loop fuel (skip_ws s2) (value :: acc)
      | _ => None
      end
  end.
Proof. reflexivity. Qed.

Lemma elements_join data more :
  join (44%N :: newline_indent 1) (iterencode 1 <$> (to_dict <$> data :: more))
  ++ newline_indent 0 ++ [93%N] =
  elements_tail (data :: more).
Proof.
  revert data. induction more as [|data' more IH]; intros data.
  - reflexivity.
  - rewrite !fmap_cons, join_cons_cons, <-!fmap_cons, <-!app_assoc, IH.
    reflexivity.
Qed.

Lemma elements_text data more :
  Json.dumps (PList (to_dict <$> data :: more)) =
  91%N :: newline_indent 1 ++ elements_tail (data :: more).
Proof.
  unfold dumps.
  change (iterencode 0 (PList (to_dict <$> data :: more)))
    with (block 91 93 0 (iterencode 1 <$> (to_dict <$> data :: more))).
  rewrite <-elements_join. unfold block. rewrite !fmap_cons.
  cbn [app]. by rewrite <-?app_assoc.
Qed.

Lemma elements_tail_head data more :
  ∃ tail, elements_tail (data :: more) = 123%N :: tail.
Proof.
  cbn [elements_tail]. unfold to_dict. rewrite (dict_text 1 _ _) by done. eauto.
Qed.

Lemma array_loop_records results acc fuel :
  results ≠ [] → length results + 7 ≤ fuel →
  array_loop fuel (elements_tail results) acc =
  Some (PList (reverse acc ++ (to_dict <$> results)), []).
Proof.
  revert acc fuel. induction results as [|data more IH]; [done|].
  intros acc fuel _ Hfuel. simpl in Hfuel.
  destruct fuel as [|fuel]; [lia|]. rewrite array_loop_eq.
  destruct fuel as [|fuel]; [lia|]. cbn [elements_tail].
  destruct more as [|data' more].
  - rewrite scan_once_record; [|lia|by eexists _, _; eauto].
    rewrite skip_ws_newline_indent.
    change (skip_ws [93%N]) with [93%N]. cbv iota.
    by rewrite reverse_cons.
  - rewrite scan_once_record; [|simpl in Hfuel; lia|by eexists _, _; eauto].
    change (skip_ws (44%N :: ?s)) with (44%N :: s). cbv iota.
    rewrite skip_ws_newline_indent.
    destruct (elements_tail_head data' more) as [tail Htail].
    rewrite Htail. change (skip_ws (123%N :: tail)) with (123%N :: tail).
    rewrite <-Htail, IH; [|done|simpl in *; lia].
    by rewrite reverse_cons, <-app_assoc.
Qed.

Lemma length_elements_tail results :
  length results ≤ length (elements_tail results).
Proof.
  induction results as [|data more IH]; [done|].
  destruct more as [|data' more].
  - cbn [elements_tail]. rewrite length_app. simpl. lia.
  - change (elements_tail (data :: data' :: more))
      with (iterencode 1 (to_dict data)
            ++ 44%N :: newline_indent 1 ++ elements_tail (data' :: more)).
    rewrite length_app. cbn [length]. rewrite length_app.
    cbn [length] in IH. lia.
Qed.

Lemma loads_dumps results :
  Json.loads (Json.dumps (PList (to_dict <$> results))) =
  Some (PList (to_dict <$> results)).
Proof.
  destruct results as [|data more]; [reflexivity|].
  rewrite elements_text. unfold loads.
  destruct (elements_tail_head data more) as [tail Htail].
  pose proof (length_elements_tail (data :: more)) as Hlen.
  rewrite Htail in Hlen |- *. cbv iota.
  change (skip_ws (91%N :: ?s)) with (91%N :: s).
  assert (length (data :: more) + 7 ≤
          2 * length (91%N :: newline_indent 1 ++ 123%N :: tail) + 1) as Hfuel.
  { cbn [length]. rewrite length_app.
    change (length (newline_indent 1)) with 3. cbn [length] in *. lia. }
  revert Hfuel.
  generalize (length (91%N :: newline_indent 1 ++ 123%N :: tail)) as n.
  intros n Hfuel.
  replace (2 * n + 2) with (S (2 * n + 1)) by lia.
  by rewrite scan_once_array, <-Htail, array_loop_records.
Qed.

(** *** No carriage return in the text *)

Lemma hex_char_no_cr d : hex_char d ≠ CR.
Proof. unfold hex_char, CR. destruct (d <? 10)%N; lia. Qed.

Lemma no_cr_escape c : no_cr (escape c).
Proof.
  unfold escape, no_cr. repeat case_bool_decide;
    try (destruct (c <? 32)%N);
    repeat (constructor; [first [done|apply hex_char_no_cr]|]); constructor.
Qed.

Lemma no_cr_app s t : no_cr s → no_cr t → no_cr (s ++ t).
Proof. apply Forall_app_2. Qed.

Lemma no_cr_encode_basestring s : no_cr (encode_basestring s).
Proof.
  unfold encode_basestring. constructor; [done|]. apply no_cr_app.
  - apply Forall_flat_map, Forall_forall. intros c _. apply no_cr_escape.
  - by repeat constructor.
Qed.

Lemma no_cr_int_repr z : no_cr (int_repr z).
Proof.
  assert (∀ d, no_cr (uint_chars d)) as Hd.
  { induction d; simpl; constructor; done. }
  unfold int_repr. destruct (Z.to_int z); [apply Hd|].
  constructor; [done|apply Hd].
Qed.

Lemma no_cr_newline_indent level : no_cr (newline_indent level).
Proof.
  unfold newline_indent. constructor; [done|].
  induction level as [|level IH]; simpl; [constructor|].
  by repeat (constructor; [done|]).
Qed.

Lemma no_cr_join sep parts :
  no_cr sep → Forall no_cr parts → no_cr (join sep parts).
Proof.
  intros Hsep. induction 1 as [|p parts Hp Hparts IH]; [constructor|].
  destruct parts as [|q parts]; [done|].
  rewrite join_cons_cons. auto using no_cr_app.
Qed.

Lemma no_cr_block opening closing level items :
  opening ≠ CR → closing ≠ CR → Forall no_cr items →
  no_cr (block opening closing level items).
Proof.
  intros Ho Hc Hitems. unfold block.
  destruct items as [|p items]; [by repeat constructor|].
  constructor; [done|]. repeat apply no_cr_app.
  - apply no_cr_newline_indent.
  - apply no_cr_join; [|done]. constructor; [done|apply no_cr_newline_indent].
  - apply no_cr_newline_indent.
  - by repeat constructor.
Qed.

Lemma no_cr_dumps results :
  no_cr (Json.dumps (PList (to_dict <$> results))).
Proof.
  unfold dumps.
  change (iterencode 0 (PList (to_dict <$> results)))
    with (block 91 93 0 (iterencode 1 <$> (to_dict <$> results))).
  apply no_cr_block; [done..|].
  rewrite <-list_fmap_compose. apply Forall_fmap, Forall_forall.
  intros data _. unfold compose, to_dict.
  change (iterencode 1 (PDict ?items))
    with (block 123 125 1 (member 1 <$> items)).
  apply no_cr_block; [done..|].
  repeat (constructor;
          [unfold member; cbn [fst snd iterencode];
           repeat apply no_cr_app;
           first [apply no_cr_encode_basestring|apply no_cr_int_repr
                 |by repeat constructor]|]).
  constructor.
Qed.
End JsonFacts.

(** *** Text files *)

Lemma read_write_text crlf s :
  Forall (fun c => c ≠ CR) s → read_text (write_text crlf s) = s.
Proof.
  unfold write_text. induction 1 as [|c s Hc Hs IH]; [done|].
  simpl flat_map. case_bool_decide as Hlf; destruct crlf; simpl.
  - subst c. by rewrite IH.
  - rewrite bool_decide_eq_false_2 by done. by rewrite IH.
  - rewrite bool_decide_eq_false_2 by done. by rewrite IH.
  - rewrite bool_decide_eq_false_2 by done. by rewrite IH.
Qed.

(** ** The structured format: the claim *)

Lemma context_entry_to_dict data :
  context_entry (to_dict data) = Some (entry_of data).
Proof. reflexivity. Qed.

Lemma context_entries results :
  mapM context_entry (to_dict <$> results) = Some (entry_of <$> results).
Proof.
  induction results as [|data more IH]; [done|].
  rewrite !fmap_cons. cbn [mapM]. rewrite context_entry_to_dict, IH. done.
Qed.


(** * More of the crawl *)

Section crawl_more.
Context (E : env) (cfg : config).

Lemma results_grow st st' :
  step E cfg st = Some st' → results st `prefix_of` results st'.
Proof.
  intros (url & depth & rest & _ & _ & Hpass)%step_Some.
  inversion Hpass; subst; simpl; [done|done|by apply prefix_app_r].
Qed.

Lemma while_loop_results fuel st st' :
  while_loop E cfg fuel st = Some st' → results st `prefix_of` results st'.
Proof.
  revert st. induction fuel as [|fuel IH]; intros st; simpl.
  - destruct (step E cfg st); [done|]. by intros [= <-].
  - destruct (step E cfg st) as [st1|] eqn:Hs; [|by intros [= <-]].
    intros Hl. etrans; [by apply results_grow|by apply IH].
Qed.

Lemma results_bound st :
  reachable E cfg st →
  (Z.of_nat (length (results st)) ≤ Z.max 0 (max_pages cfg))%Z.
Proof.
  induction 1 as [|st st' Hst IH Hstep]; [simpl; lia|].
  pose proof (visited_invariant _ _ _ Hst) as (_ & _ & Hsz & _).
  apply step_Some in Hstep as (url & d & rest & _ & Hlt & Hpass).
  inversion Hpass; subst; simpl; rewrite ?length_app; simpl; lia.
Qed.

(** The log of requests is that of the calls of [scrape_webpage]. *)
Lemma gets_requests st :
  reachable E cfg st → gets st = requests_of cfg (scrapes st).
Proof.
  induction 1 as [|st st' Hst IH Hstep]; [done|].
  unfold step in Hstep. destruct (to_visit st) as [|[url depth] rest]; [done|].
  case_bool_decide; [|done]. injection Hstep as <-. unfold iteration.
  destruct (bool_decide (url ∈ visited st) || bool_decide (max_depth cfg < depth)%Z);
    [done|].
  unfold requests_of in *.
  destruct (scrape_webpage E (length (gets st)) url) as [data|]; simpl.
  - case_bool_decide; simpl; rewrite flat_map_app, IH; simpl.
    + by rewrite bool_decide_eq_true_2.
    + by rewrite bool_decide_eq_false_2.
  - by rewrite flat_map_app, IH.
Qed.

Lemma gets_popped st url :
  reachable E cfg st → url ∈ gets st → ∃ depth, (url, depth) ∈ popped st.
Proof.
  intros Hst. rewrite (gets_requests st Hst).
  destruct (queue_invariant E cfg st Hst) as (_ & _ & _ & Hsub & _).
  unfold requests_of. rewrite list_elem_of_In, in_flat_map.
  intros ([[u d] ok] & Hin%list_elem_of_In & Hurl). simpl in Hurl.
  assert (url = u) as ->.
  { destruct (ok && _); simpl in Hurl; intuition. }
  exists d. eapply elem_of_sublist; [|done].
  apply list_elem_of_fmap. by exists (u, d, ok).
Qed.

(** Until the first record there is nothing but the start URL to
    scrape, and it is scraped by the first request. *)
Lemma first_record st :
  reachable E cfg st →
  results st = [] ∧ gets st = [] ∧ to_visit st = [(start_url cfg, 0%Z)] ∨
  results st = [] ∧ to_visit st = [] ∧
    (gets st = [] ∨
     gets st = [start_url cfg] ∧ scrape_webpage E 0 (start_url cfg) = None) ∨
  ∃ r rs, results st = r :: rs ∧ scrape_webpage E 0 (start_url cfg) = Some r.
Proof.
  induction 1 as [|st st' Hst IH Hstep]; [by left|].
  apply step_Some in Hstep as (url & depth & rest & Hq & _ & Hpass).
  destruct IH as [(Hr & Hg & Hto)|[(Hr & Hto & _)|(r & rs & Hr & Hs)]].
  - rewrite Hto in Hq. injection Hq as <- <- <-.
    inversion Hpass as [|? ? Hs|data new more ? ? Hs]; subst; simpl;
      rewrite Hg in *; simpl in *.
    + right; left. auto.
    + right; left. auto.
    + right; right. rewrite Hr. by exists data, [].
  - by rewrite Hto in Hq.
  - right; right. inversion Hpass; subst; simpl; rewrite ?Hr; eauto.
Qed.
End crawl_more.

Lemma step_max_pages E start pages pages' depth st st' :
  (pages ≤ pages')%Z →
  step E (Config start pages depth) st = Some st' →
  step E (Config start pages' depth) st = Some st'.
Proof.
  intros Hle. unfold step. destruct (to_visit st) as [|[url d] rest]; [done|].
  simpl. case_bool_decide; [|done]. intros [= <-].
  by rewrite bool_decide_eq_true_2 by lia.
Qed.

Lemma while_loop_max_pages E start pages pages' depth fuel fuel' st st1 st2 :
  (pages ≤ pages')%Z →
  while_loop E (Config start pages depth) fuel st = Some st1 →
  while_loop E (Config start pages' depth) fuel' st = Some st2 →
  results st1 `prefix_of` results st2 ∧ (to_visit st1 = [] → st2 = st1).
Proof.
  intros Hle. revert fuel' st.
  assert (∀ fuel' st,
    step E (Config start pages depth) st = None →
    while_loop E (Config start pages' depth) fuel' st = Some st2 →
    results st `prefix_of` results st2 ∧ (to_visit st = [] → st2 = st)) as Hend.
  { intros fuel' st Hs Hl2. split; [by eapply while_loop_results|].
    intros Hto. assert (step E (Config start pages' depth) st = None) as Hs'.
    { apply step_None. by left. }
    destruct fuel'; simpl in Hl2; rewrite Hs' in Hl2; by injection Hl2. }
  induction fuel as [|fuel IH]; intros fuel' st; simpl.
  - destruct (step E (Config start pages depth) st) eqn:Hs; [done|].
    intros [= <-]. by apply Hend.
  - destruct (step E (Config start pages depth) st) as [st'|] eqn:Hs.
    + intros Hl1 Hl2.
      apply (step_max_pages _ _ _ pages') in Hs; [|done].
      destruct fuel' as [|fuel']; simpl in Hl2; rewrite Hs in Hl2; [done|].
      by eapply IH.
    + intros [= <-]. by apply Hend.
Qed.

Lemma step_initial E cfg :
  step E cfg (initial cfg) =
  if bool_decide (0 < max_pages cfg)%Z
  then Some (iteration E cfg (initial cfg) (start_url cfg) 0 [])
  else None.
Proof. unfold step, initial. cbn [to_visit visited]. by rewrite size_empty. Qed.

Lemma iteration_initial E cfg :
  iteration E cfg (initial cfg) (start_url cfg) 0 [] =
  if bool_decide (max_depth cfg < 0)%Z
  then State ∅ [] [] [] [] [(start_url cfg, 0%Z)]
  else
    match scrape_webpage E 0 (start_url cfg) with
    | None =>
        State ∅ [] [] [start_url cfg] [(start_url cfg, 0%Z, false)]
              [(start_url cfg, 0%Z)]
    | Some data =>
        if bool_decide (0 < max_depth cfg)%Z
        then
          State ({[start_url cfg]} ∪ ∅)
            (new_entries ({[start_url cfg]} ∪ ∅) 0
               (set_iter E (get_links E 1 (start_url cfg) (start_url cfg))))
            [data] [start_url cfg; start_url cfg]
            [(start_url cfg, 0%Z, true)] [(start_url cfg, 0%Z)]
        else
          State ({[start_url cfg]} ∪ ∅) [] [data] [start_url cfg]
            [(start_url cfg, 0%Z, true)] [(start_url cfg, 0%Z)]
    end.
Proof.
  unfold iteration, initial.
  cbn [visited to_visit results gets scrapes popped length app].
  by rewrite (bool_decide_eq_false_2 (start_url cfg ∈ ∅)) by set_solver.
Qed.

Lemma while_loop_done E cfg fuel st :
  to_visit st = [] → while_loop E cfg fuel st = Some st.
Proof.
  intros Hto. assert (step E cfg st = None) as Hs by (apply step_None; by left).
  destruct fuel; simpl; by rewrite Hs.
Qed.

(** X1.  A crawl with [max_pages] at most 0 or with a negative
    [max_depth] returns no record and issues no request. *)
Theorem crawl_without_budget E start pages depth fuel :
  (pages ≤ 0 ∨ depth < 0)%Z →
  scrape_website E (S fuel) start pages depth = Some [] ∧
  ∃ st, while_loop E (Config start pages depth) (S fuel)
          (initial (Config start pages depth)) = Some st ∧
        gets st = [].
Proof.
  intros Hbounds. set (cfg := Config start pages depth).
  assert (∃ st, while_loop E cfg (S fuel) (initial cfg) = Some st ∧
                results st = [] ∧ gets st = []) as (st & Hloop & Hres & Hgets).
  { cbn [while_loop]. rewrite step_initial. simpl.
    destruct (decide (pages ≤ 0)%Z) as [Hpages|Hpages].
    - rewrite bool_decide_eq_false_2 by lia. by eexists.
    - rewrite bool_decide_eq_true_2 by lia. rewrite iteration_initial. simpl.
      rewrite bool_decide_eq_true_2 by lia.
      rewrite while_loop_done by done. by eexists. }
  split; [|by exists st]. unfold scrape_website. fold cfg. by rewrite Hloop, <-Hres.
Qed.

Lemma crawl_without_budget_witness :
  (2 ≤ 0 ∨ -1 < 0)%Z ∧ scrape_website Demo.E 1 Demo.home 2 (-1) = Some [].
Proof.
  split; [lia|]. apply (crawl_without_budget Demo.E Demo.home 2 (-1) 0). lia.
Defined.

Lemma depth_zero_loop E start pages fuel :
  (1 ≤ pages)%Z →
  ∃ st, while_loop E (Config start pages 0) (S fuel)
          (initial (Config start pages 0)) = Some st ∧
        results st = option_list (scrape_webpage E 0 start) ∧
        gets st = [start].
Proof.
  intros Hpages. cbn [while_loop]. rewrite step_initial. simpl.
  rewrite bool_decide_eq_true_2 by lia. rewrite iteration_initial. simpl.
  destruct (scrape_webpage E 0 start) as [data|]; simpl;
    rewrite while_loop_done by done; by eexists.
Qed.

Lemma scrape_website_depth_zero E start pages fuel :
  (1 ≤ pages)%Z →
  scrape_website E (S fuel) start pages 0 =
    Some (option_list (scrape_webpage E 0 start)).
Proof.
  intros Hpages.
  destruct (depth_zero_loop E start pages fuel Hpages) as (st & Hloop & Hres & _).
  unfold scrape_website. by rewrite Hloop, <-Hres.
Qed.

(** X2.  With [max_depth] 0 and room for a page the crawl is the scrape
    of the start URL alone: its record if that succeeds, nothing if not,
    for one request. *)
Theorem depth_zero_scrapes_the_start_only E start pages fuel :
  (1 ≤ pages)%Z →
  scrape_website E (S fuel) start pages 0 =
    Some (option_list (scrape_webpage E 0 start)) ∧
  ∃ st, while_loop E (Config start pages 0) (S fuel)
          (initial (Config start pages 0)) = Some st ∧
        gets st = [start].
Proof.
  intros Hpages. split; [by apply scrape_website_depth_zero|].
  destruct (depth_zero_loop E start pages fuel Hpages) as (st & Hloop & _ & Hgets).
  by exists st.
Qed.

Lemma depth_zero_scrapes_the_start_only_witness :
  (1 ≤ 10)%Z ∧
  scrape_website Demo.E 1 Demo.home 10 0 =
    Some (option_list (scrape_webpage Demo.E 0 Demo.home)).
Proof.
  split; [lia|].
  apply (depth_zero_scrapes_the_start_only Demo.E Demo.home 10 0). lia.
Defined.

(** X3.  The first record of a crawl, if there is one, is that of the
    start URL, made from the answer to the first request; when that
    scrape fails the crawl has no record at all and no other request is
    issued. *)
Theorem start_page_comes_first E cfg st :
  reachable E cfg st →
  (∀ r rs, results st = r :: rs →
     Page.url r = start_url cfg ∧ scrape_webpage E 0 (start_url cfg) = Some r) ∧
  (scrape_webpage E 0 (start_url cfg) = None →
     results st = [] ∧ (gets st = [] ∨ gets st = [start_url cfg])).
Proof.
  intros Hst.
  destruct (first_record E cfg st Hst)
    as [(Hr & Hg & _)|[(Hr & _ & Hg)|(r & rs & Hr & Hs)]].
  - rewrite Hr. split; [done|]. auto.
  - rewrite Hr. split; [done|]. intros _. split; [done|].
    destruct Hg as [?|[? _]]; auto.
  - split.
    + intros r' rs'. rewrite Hr. intros [= <- <-].
      split; [|done]. by eapply scrape_webpage_url.
    + intros Hnone. by rewrite Hnone in Hs.
Qed.

Lemma start_page_comes_first_witness :
  reachable Demo.E Demo.cfg Demo.final ∧
  ∀ r rs, results Demo.final = r :: rs → Page.url r = Demo.home.
Proof.
  split; [apply demo_final_reachable|]. intros r rs Hr.
  destruct (start_page_comes_first Demo.E Demo.cfg Demo.final
              demo_final_reachable) as [Hfirst _].
  by destruct (Hfirst r rs Hr).
Defined.

Lemma requests_of_cons cfg call history :
  requests_of cfg (call :: history) =
  (if call.2 && bool_decide (call.1.2 < max_depth cfg)%Z
   then [call.1.1; call.1.1] else [call.1.1]) ++ requests_of cfg history.
Proof. done. Qed.

Lemma length_requests_of cfg history :
  length (requests_of cfg history) =
    length history
    + length (List.filter (fun e => bool_decide (e.2 < max_depth cfg)%Z)
                (successes history)) ∧
  length (requests_of cfg history) ≤ 2 * length history.
Proof.
  induction history as [|[[u d] ok] history [IH1 IH2]]; [done|].
  rewrite requests_of_cons, length_app. unfold successes in *.
  cbn [List.filter fst snd fmap list_fmap length].
  destruct ok; cbn [andb fmap list_fmap List.filter fst snd].
  - case_bool_decide; cbn [length]; lia.
  - cbn [length]. lia.
Qed.

(** X4.  The requests of a crawl are those of its [scrape_webpage]
    calls, in order: one request for each call, followed at once by a
    second request for the same URL when the page was scraped with
    success at a depth below [max_depth], and by nothing otherwise.  So
    there are at most two requests for each call. *)
Theorem request_log E cfg st :
  reachable E cfg st →
  gets st = requests_of cfg (scrapes st) ∧
  length (gets st) =
    length (scrapes st)
    + length (List.filter (fun e => bool_decide (e.2 < max_depth cfg)%Z)
                (fetched st)) ∧
  length (gets st) ≤ 2 * length (scrapes st).
Proof.
  intros Hst. rewrite (gets_requests E cfg st Hst). split; [done|].
  apply length_requests_of.
Qed.

Lemma request_log_witness :
  reachable Demo.E Demo.cfg Demo.final ∧
  length (gets Demo.final) = 9 ∧ length (scrapes Demo.final) = 6.
Proof.
  split; [apply demo_final_reachable|].
  destruct (request_log Demo.E Demo.cfg Demo.final demo_final_reachable)
    as (_ & -> & _).
  by vm_compute.
Defined.

(** X5.  Every URL a crawl requests is the start URL or the target of
    an anchor of a page it was given, resolved against the start URL,
    on the network location of the start URL and without its
    fragment. *)
Theorem requests_stay_on_site E cfg st url :
  reachable E cfg st → url ∈ gets st →
  url = start_url cfg ∨
  ∃ n page r href,
    requests_get E n page = Return r ∧ href ∈ anchor_hrefs (soup r) ∧
    same_origin_target E (start_url cfg) href url.
Proof.
  intros Hst [depth Hpop]%(gets_popped E cfg st url Hst).
  destruct (discovered_origin E cfg st (url, depth) Hst) as [[= -> _]|Hlink].
  - apply elem_of_app. by left.
  - by left.
  - by right.
Qed.

Lemma requests_stay_on_site_witness :
  reachable Demo.E Demo.cfg Demo.final ∧ Demo.b ∈ gets Demo.final ∧
  (Demo.b = Demo.home ∨
   ∃ n page r href,
     requests_get Demo.E n page = Return r ∧ href ∈ anchor_hrefs (soup r) ∧
     same_origin_target Demo.E Demo.home href Demo.b).
Proof.
  assert (Demo.b ∈ gets Demo.final) as Hin
    by (apply (bool_decide_unpack _); by vm_compute).
  split_and!; [apply demo_final_reachable|done|].
  apply (requests_stay_on_site Demo.E Demo.cfg Demo.final Demo.b
           demo_final_reachable Hin).
Defined.

(** X6.  A crawl with a smaller [max_pages] returns the first records
    of the crawl with the larger one: raising [max_pages] only adds
    records at the end. *)
Theorem more_pages_extend_the_results
    E start pages pages' depth fuel fuel' res res' :
  (pages ≤ pages')%Z →
  scrape_website E fuel start pages depth = Some res →
  scrape_website E fuel' start pages' depth = Some res' →
  res = take (Z.to_nat pages) res'.
Proof.
  intros Hle (st1 & Hl1 & ->)%fmap_Some (st2 & Hl2 & ->)%fmap_Some.
  destruct (while_loop_max_pages _ _ _ _ _ _ _ _ _ _ Hle Hl1 Hl2)
    as [[more Hmore] Hsame].
  apply while_loop_reachable in Hl1 as [Hst1 Hend]; [|constructor].
  pose proof (results_bound _ _ _ Hst1) as Hbound. simpl in Hbound.
  pose proof (visited_invariant _ _ _ Hst1) as (_ & _ & Hsz & _).
  apply step_None in Hend as [Hempty|Hfull]; simpl in *.
  - rewrite (Hsame Hempty). symmetry. apply take_ge. lia.
  - rewrite Hmore.
    replace (Z.to_nat pages) with (length (results st1)) by lia.
    by rewrite take_app_length.
Qed.

Lemma more_pages_extend_the_results_witness :
  (2 ≤ 10)%Z ∧
  scrape_website Demo.E 3 Demo.home 2 2 =
    take 2 <$> scrape_website Demo.E 7 Demo.home 10 2.
Proof.
  split; [lia|].
  destruct (scrape_website Demo.E 3 Demo.home 2 2) as [res|] eqn:Hres;
    [|by vm_compute in Hres].
  destruct (scrape_website Demo.E 7 Demo.home 10 2) as [res'|] eqn:Hres';
    [|by vm_compute in Hres'].
  simpl. f_equal.
  apply (more_pages_extend_the_results Demo.E Demo.home 2 10 2 3 7 res res');
    [lia|done..].
Defined.

(** * The pages a crawl reaches *)

Section complete.
Context (E : env) (cfg : config).

(** The queue after a page is scraped above the depth bound. *)
Lemma step_links st st' url depth rest data :
  step E cfg st = Some st' → to_visit st = (url, depth) :: rest →
  url ∉ visited st → (depth < max_depth cfg)%Z →
  scrape_webpage E (length (gets st)) url = Some data →
  to_visit st' =
    rest ++ new_entries ({[url]} ∪ visited st) depth
              (set_iter E (get_links E (S (length (gets st))) url (start_url cfg))).
Proof.
  intros Hstep Hq Hnv Hd Hs. unfold step in Hstep. rewrite Hq in Hstep.
  case_bool_decide; [|done]. injection Hstep as <-. unfold iteration.
  rewrite (bool_decide_eq_false_2 (url ∈ visited st)) by done.
  rewrite (bool_decide_eq_false_2 (max_depth cfg < depth)%Z) by lia.
  simpl. rewrite Hs. by rewrite bool_decide_eq_true_2.
Qed.

Lemma static_get_links n m url base :
  static E → get_links E n url base = get_links E m url base.
Proof. intros Hstatic. unfold get_links. by rewrite (Hstatic n m url). Qed.

Lemma start_discovered st :
  reachable E cfg st → (start_url cfg, 0%Z) ∈ discovered st.
Proof.
  induction 1 as [|st st' Hst IH Hstep]; [left|].
  destruct (discovered_grows E cfg st st' Hstep) as [new ->].
  apply elem_of_app. by left.
Qed.

Lemma fetched_popped st e :
  reachable E cfg st → e ∈ fetched st → e ∈ popped st.
Proof.
  intros Hst He.
  destruct (queue_invariant E cfg st Hst) as (_ & _ & _ & Hsub & _).
  eapply elem_of_sublist; [done|]. etrans; [apply successes_sublist|done].
Qed.

(** On a static site an entry is taken from the queue for a URL that
    can be scraped only when the URL has been scraped at an entry no
    deeper, and the links of a page scraped above the depth bound all
    have entries, one level below the page at most. *)
Lemma complete_invariant st :
  static E → (0 ≤ max_depth cfg)%Z → reachable E cfg st →
  (∀ e, e ∈ popped st → scrapable E e.1 →
        ∃ d, (d ≤ e.2)%Z ∧ (e.1, d) ∈ fetched st) ∧
  (∀ url d link, (url, d) ∈ fetched st → (d < max_depth cfg)%Z →
        links_to E cfg url link →
        ∃ d', (d' ≤ d + 1)%Z ∧ (link, d') ∈ discovered st).
Proof.
  intros Hstatic Hdepth. induction 1 as [|st st' Hst [IHa IHb] Hstep].
  { split; [by intros e ?%elem_of_nil|by intros ??? ?%elem_of_nil]. }
  pose proof (queue_invariant E cfg st Hst) as (Hsorted & _ & Hbound & _).
  pose proof (visited_invariant E cfg st Hst) as (Hv & _ & _ & Hf & _).
  pose proof (discovered_grows E cfg st st' Hstep) as [grown Hgrown].
  pose proof Hstep as (url & depth & rest & Hq & _ & Hpass)%step_Some.
  unfold discovered in Hsorted, Hbound. rewrite Hq in Hsorted, Hbound.
  assert (∀ e, e ∈ popped st → (e.2 ≤ depth)%Z) as Hbefore.
  { intros e He.
    by apply (StronglySorted_app_1_elem_of _ _ _ e (url, depth)) in Hsorted;
      [|done|left]. }
  assert (∀ u, u ∈ visited st → ∃ d, (d ≤ depth)%Z ∧ (u, d) ∈ fetched st)
    as Hseen.
  { intros u Hu. apply Hv in Hu. rewrite <-Hf in Hu.
    apply list_elem_of_fmap in Hu as ([u' d] & -> & Hin). exists d.
    split; [|done]. by apply (Hbefore (u', d)), fetched_popped. }
  assert (∀ e, e ∈ fetched st → e ∈ fetched st') as Hkept.
  { intros e He. unfold fetched in *.
    inversion Hpass; subst; simpl;
      rewrite ?successes_snoc_false, ?successes_snoc_true; [done..|].
    apply elem_of_app. by left. }
  assert (∀ url d link, (url, d) ∈ fetched st → (d < max_depth cfg)%Z →
            links_to E cfg url link →
            ∃ d', (d' ≤ d + 1)%Z ∧ (link, d') ∈ discovered st') as Hold.
  { intros u d link Hu Hd Hlink.
    destruct (IHb u d link Hu Hd Hlink) as (d' & Hd' & Hin).
    exists d'. split; [done|]. rewrite Hgrown. apply elem_of_app. by left. }
  assert ((depth ≤ max_depth cfg)%Z) as Hle.
  { assert ((url, depth) ∈ popped st ++ (url, depth) :: rest) as Hin
      by (apply elem_of_app; right; left).
    apply Hbound in Hin. simpl in Hin. lia. }
  inversion Hpass as [Hskip|Hnv _ Hs|data new more Hnv _ Hs Hnew]; subst st'.
  - split; [|done]. simpl.
    intros e [He| ->%list_elem_of_singleton]%elem_of_app Hok; [by apply IHa|].
    simpl in *. destruct Hskip as [Hu|Hdeep]; [|lia].
    by apply Hseen.
  - split.
    2:{ intros u d link Hu. apply (Hold u d link). unfold fetched in *. simpl in Hu.
        by rewrite successes_snoc_false in Hu. }
    simpl. intros e [He| ->%list_elem_of_singleton]%elem_of_app Hok.
    + destruct (IHa e He Hok) as (d & ? & ?). exists d. auto.
    + destruct Hok as (n & data & Hok). simpl in Hok.
      eapply static_scrape in Hok as [data' Hok]; [|done].
      by rewrite Hs in Hok.
  - split.
    + simpl. intros e [He| ->%list_elem_of_singleton]%elem_of_app Hok.
      * destruct (IHa e He Hok) as (d & ? & ?). exists d. auto.
      * exists depth. split; [done|]. unfold fetched. simpl.
        rewrite successes_snoc_true. apply elem_of_app. right. left.
    + intros u d link Hu Hd Hlink. unfold fetched in Hu. simpl in Hu.
      rewrite successes_snoc_true in Hu.
      apply elem_of_app in Hu as [Hu|[= -> ->]%list_elem_of_singleton];
        [by apply (Hold u d link)|].
      pose proof (step_links _ _ _ _ _ _ Hstep Hq Hnv Hd Hs) as Hto.
      destruct Hlink as [n Hlink].
      rewrite (static_get_links n (S (length (gets st))) _ _ Hstatic) in Hlink.
      unfold discovered. rewrite Hto.
      destruct (decide (link ∈ ({[url]} ∪ visited st))) as [Hin|Hout].
      * apply elem_of_union in Hin as [->%elem_of_singleton|Hin].
        -- exists depth. split; [lia|]. simpl.
           apply elem_of_app. left. apply elem_of_app. right. left.
        -- destruct (Hseen link Hin) as (d' & Hd' & Hf').
           exists d'. split; [lia|]. simpl.
           apply fetched_popped in Hf'; [|done].
           apply elem_of_app. left. apply elem_of_app. by left.
      * exists (depth + 1)%Z. split; [lia|].
        apply elem_of_app. right. apply elem_of_app. right.
        apply new_entries_spec. simpl. split_and!; [done| |done].
        by apply set_iter_elem.
Qed.
(** Every entry of the queue is reached from the start by as many links
    as its depth, each on a page that was scraped. *)
Lemma discovered_scraped_path st e :
  reachable E cfg st → e ∈ discovered st → scraped_path E cfg e.1 e.2.
Proof.
  intros Hst. revert e. induction Hst as [|st st' Hst IH Hstep]; intros e.
  { intros ->%list_elem_of_singleton. constructor. }
  pose proof Hstep as (url & depth & rest & Hq & _ & Hpass)%step_Some.
  assert (∀ e, e ∈ popped st ++ (url, depth) :: rest →
               scraped_path E cfg e.1 e.2) as Hold.
  { intros e' He'. apply IH. unfold discovered. by rewrite Hq. }
  unfold discovered.
  inversion Hpass as [|? ? Hs|data new more ? ? Hs Hnew]; subst st'; simpl;
    rewrite <-?app_assoc; simpl; [apply Hold..|].
  intros [He|He]%elem_of_app; [apply Hold, elem_of_app; by left|].
  apply elem_of_cons in He as [->|He]; [apply Hold, elem_of_app; right; left|].
  apply elem_of_app in He as [He|He];
    [apply Hold, elem_of_app; right; by right|].
  destruct Hnew as [[-> _]|(_ & _ & ->)]; [by apply elem_of_nil in He|].
  apply new_entries_spec in He as (He2 & He1 & _). rewrite He2.
  apply set_iter_elem in He1.
  apply (scraped_path_step E cfg url depth).
  - apply (Hold (url, depth)). apply elem_of_app. right. left.
  - by exists (length (gets st)), data.
  - by eexists.
Qed.
End complete.

(** X7.  On a static site a crawl that ends with fewer than [max_pages]
    records has a record for exactly the URLs that can be scraped and
    that [max_depth] links or fewer lead to from the start URL, each
    link on a page that can be scraped. *)
Theorem crawl_is_exact_on_a_static_site E start pages depth fuel res url :
  static E → (0 ≤ depth)%Z →
  scrape_website E fuel start pages depth = Some res →
  (Z.of_nat (length res) < pages)%Z →
  url ∈ Page.url <$> res ↔
  scrapable E url ∧
  ∃ d, (d ≤ depth)%Z ∧ scraped_path E (Config start pages depth) url d.
Proof.
  intros Hstatic Hdepth (st & Hst & Hend & ->)%scrape_website_Some Hroom.
  set (cfg := Config start pages depth) in *.
  destruct (complete_invariant E cfg st Hstatic Hdepth Hst) as [Ha Hb].
  pose proof (visited_invariant E cfg st Hst) as (_ & _ & Hsz & Hf & Hrec).
  pose proof (queue_invariant E cfg st Hst) as (_ & _ & Hbound & _).
  apply step_None in Hend as [Hempty|Hfull]; [|simpl in Hfull; lia].
  assert (∀ e, e ∈ discovered st → e ∈ popped st) as Hall.
  { intros e. unfold discovered. by rewrite Hempty, app_nil_r. }
  split.
  - intros Hin. split.
    + apply list_elem_of_fmap in Hin as (r & -> & Hr).
      destruct (Hrec r Hr) as [n Hn]. by exists n, r.
    + rewrite <-Hf in Hin. apply list_elem_of_fmap in Hin as ([u d] & -> & Hin).
      assert ((u, d) ∈ discovered st) as Hdisc.
      { apply elem_of_app. left. by apply (fetched_popped E cfg). }
      exists d. split.
      * apply Hbound in Hdisc. unfold cfg in Hdisc. simpl in Hdisc. lia.
      * by apply (discovered_scraped_path E cfg st (u, d)).
  - intros (Hok & d & Hd & Hpath).
    assert (∃ d', (d' ≤ d)%Z ∧ (url, d') ∈ fetched st) as (d' & _ & Hin).
    { induction Hpath as [|page n link _ IH Hpage Hlink].
      - apply (Ha (start, 0%Z)); [|done].
        apply Hall, (start_discovered E cfg st Hst).
      - destruct IH as (n' & Hn' & Hin); [done|lia|].
        destruct (Hb page n' link Hin) as (m & Hm & Hentry); [simpl; lia|done|].
        destruct (Ha (link, m)) as (m' & Hm' & Hf'); [by apply Hall|done|].
        exists m'. simpl in Hm'. split; [lia|done]. }
    rewrite <-Hf. apply list_elem_of_fmap. by exists (url, d').
Qed.

Lemma crawl_is_exact_on_a_static_site_witness :
  static Demo.E ∧
  scraped_path Demo.E Demo.cfg Demo.b 1 ∧ scrapable Demo.E Demo.b ∧
  ∃ res, scrape_website Demo.E 7 Demo.home 10 2 = Some res ∧
         Demo.b ∈ Page.url <$> res.
Proof.
  assert (scrapable Demo.E Demo.home) as Hhome by (eexists 0, _; by vm_compute).
  assert (scrapable Demo.E Demo.b) as Hb by (eexists 0, _; by vm_compute).
  assert (scraped_path Demo.E Demo.cfg Demo.b 1) as Hpath.
  { apply (scraped_path_step Demo.E Demo.cfg Demo.home 0 Demo.b);
      [constructor|done|].
    exists 0. apply (bool_decide_unpack _). by vm_compute. }
  split_and!; [apply demo_static|done..|].
  destruct (scrape_website Demo.E 7 Demo.home 10 2) as [res|] eqn:Hres;
    [|by vm_compute in Hres].
  exists res. split; [done|].
  assert (length <$> scrape_website Demo.E 7 Demo.home 10 2 = Some 3) as Hlen
    by (by vm_compute).
  rewrite Hres in Hlen. injection Hlen as Hlen.
  apply (crawl_is_exact_on_a_static_site Demo.E Demo.home 10 2 7 res Demo.b
           demo_static); [lia|done|lia|].
  split; [done|]. exists 1%Z. split; [lia|done].
Defined.

(** * Messages and the URLs in them *)

Section pattern_facts.
Import ChatbotWithUrlScraping.
Context (unicode_alnum unicode_decimal : N → bool).
Local Abbreviation host := (host unicode_alnum unicode_decimal).
Local Abbreviation after_scheme := (after_scheme unicode_alnum unicode_decimal).
Local Abbreviation match_url := (match_url unicode_alnum unicode_decimal).
Local Abbreviation findall_from := (findall_from unicode_alnum unicode_decimal).
Local Abbreviation is_host_char := (is_host_char unicode_alnum).
Local Abbreviation is_hex := (is_hex unicode_decimal).

Lemma host_cons_char c s :
  is_host_char c = true → host (c :: s) = prod_map (cons c) id (host s).
Proof. intros Hc. simpl. by rewrite Hc. Qed.

Lemma host_cons_escape h1 h2 s :
  is_host_char 37 = false → is_hex h1 = true → is_hex h2 = true →
  host (37%N :: h1 :: h2 :: s) =
  prod_map (fun m => 37%N :: h1 :: h2 :: m) id (host s).
Proof. intros Hc H1 H2. cbn [host]. by rewrite Hc, H1, H2. Qed.

(** The cases of [host]. *)
Lemma host_cases s h r :
  host s = (h, r) →
  h = [] ∧ r = s ∨
  (∃ c s1 h1, s = c :: s1 ∧ is_host_char c = true ∧ host s1 = (h1, r) ∧
              h = c :: h1) ∨
  (∃ x y s2 h2, s = 37%N :: x :: y :: s2 ∧ is_host_char 37 = false ∧
                is_hex x = true ∧ is_hex y = true ∧ host s2 = (h2, r) ∧
                h = 37%N :: x :: y :: h2).
Proof.
  destruct s as [|c s1]; [intros [= <- <-]; by left|]. cbn [host].
  destruct (is_host_char c) eqn:Hc.
  { destruct (host s1) as [h1 r1] eqn:Hh. intros [= <- <-].
    right; left. by exists c, s1, h1. }
  case_bool_decide as H37; [|intros [= <- <-]; by left]. subst c.
  destruct s1 as [|x [|y s2]]; try (intros [= <- <-]; by left).
  destruct (is_hex x) eqn:Hx; [|intros [= <- <-]; by left].
  destruct (is_hex y) eqn:Hy; [|intros [= <- <-]; by left].
  simpl. destruct (host s2) as [h2 r2] eqn:Hh. intros [= <- <-].
  right; right. by exists x, y, s2, h2.
Qed.

Lemma host_ind (P : str → str → str → Prop) :
  (∀ s, P s [] s) →
  (∀ c s h r, is_host_char c = true → host s = (h, r) → P s h r →
     P (c :: s) (c :: h) r) →
  (∀ x y s h r, is_host_char 37 = false → is_hex x = true → is_hex y = true →
     host s = (h, r) → P s h r →
     P (37%N :: x :: y :: s) (37%N :: x :: y :: h) r) →
  ∀ s h r, host s = (h, r) → P s h r.
Proof.
  intros Hnil Hchar Hesc s.
  induction s as [s IH] using (induction_ltof1 _ length). unfold ltof in IH.
  intros h r Hh.
  destruct (host_cases s h r Hh)
    as [[-> ->]|[(c & s1 & h1 & -> & Hc & Hh1 & ->)
                |(x & y & s2 & h2 & -> & Hc & Hx & Hy & Hh2 & ->)]].
  - apply Hnil.
  - apply Hchar; [done..|]. apply IH; [simpl; lia|done].
  - apply Hesc; [done..|]. apply IH; [simpl; lia|done].
Qed.

Lemma host_app s h r : host s = (h, r) → s = h ++ r.
Proof.
  revert s h r. apply host_ind; [done|..]; intros; simpl; congruence.
Qed.

(** Matching again what was matched takes all of it. *)
Lemma host_again s h r : host s = (h, r) → host h = (h, []).
Proof.
  revert s h r. apply host_ind.
  - by intros [|??].
  - intros c s h r Hc _ IH. by rewrite host_cons_char, IH.
  - intros x y s h r Hc Hx Hy _ IH. by rewrite host_cons_escape, IH.
Qed.

Lemma is_host_char_like c : is_host_char c = true → host_like c.
Proof.
  unfold ChatbotWithUrlScraping.is_host_char, is_word, host_like.
  intros Hc Hlt. apply N.ltb_lt in Hlt. rewrite Hlt in Hc.
  destruct (ascii_alnum c); [by left|]. right.
  repeat case_bool_decide; subst; try done; set_solver.
Qed.

Lemma is_hex_like c : is_hex c = true → host_like c.
Proof.
  unfold ChatbotWithUrlScraping.is_hex, host_like. intros Hc Hlt. left.
  apply N.ltb_lt in Hlt. rewrite Hlt in Hc.
  unfold ascii_alnum, Urllib.is_lower, Urllib.is_upper.
  destruct (Urllib.is_digit c); [by rewrite orb_true_r|].
  simpl in Hc. rewrite orb_false_r.
  apply orb_true_iff in Hc as [Hc|Hc]; apply andb_true_iff in Hc as [H1 H2];
    apply N.leb_le in H1, H2; apply orb_true_iff; [left|right];
    apply andb_true_iff; split; apply N.leb_le; lia.
Qed.

Lemma host_chars s h r : host s = (h, r) → Forall host_like h.
Proof.
  revert s h r. apply host_ind.
  - constructor.
  - intros c s h r Hc _ IH. constructor; [by apply is_host_char_like|done].
  - intros x y s h r _ Hx Hy _ IH.
    repeat (constructor; [first [by apply is_hex_like|intros _; right; set_solver]|]).
    done.
Qed.

Lemma after_prefix_Some prefix s rest :
  after_prefix prefix s = Some rest ↔ s = prefix ++ rest.
Proof.
  revert s. induction prefix as [|c prefix IH]; intros [|x s]; simpl.
  - split; congruence.
  - split; congruence.
  - split; [done|]. by intros [=].
  - case_bool_decide as Hx; [subst x; rewrite IH|]; split; congruence.
Qed.

Lemma after_scheme_Some scheme s m r :
  after_scheme scheme s = Some (m, r) →
  ∃ s1 h, s = py "://" ++ s1 ∧ host s1 = (h, r) ∧ h ≠ [] ∧
          m = scheme ++ py "://" ++ h.
Proof.
  unfold ChatbotWithUrlScraping.after_scheme.
  destruct (after_prefix (py "://") s) as [s1|] eqn:Hp; [|done].
  apply after_prefix_Some in Hp as ->.
  destruct (host s1) as [h rest] eqn:Hh.
  destruct h as [|c h]; [done|]. intros [= <- <-]. by exists s1, (c :: h).
Qed.

Lemma after_scheme_again scheme s1 h r :
  host s1 = (h, r) → h ≠ [] →
  after_scheme scheme (py "://" ++ h) = Some (scheme ++ py "://" ++ h, []).
Proof.
  intros Hh Hne. unfold ChatbotWithUrlScraping.after_scheme.
  rewrite (proj2 (after_prefix_Some (py "://") _ h)) by done.
  rewrite (host_again _ _ _ Hh). by destruct h.
Qed.

Lemma match_url_Some s m r :
  match_url s = Some (m, r) →
  ∃ scheme h s1,
    scheme ∈ [py "http"; py "https"] ∧ m = scheme ++ py "://" ++ h ∧
    h ≠ [] ∧ s = m ++ r ∧ host s1 = (h, r).
Proof.
  unfold ChatbotWithUrlScraping.match_url.
  destruct (after_prefix (py "http") s) as [s1|] eqn:Hp; [|done].
  apply after_prefix_Some in Hp as ->.
  assert (after_scheme (py "http") s1 = Some (m, r) →
    ∃ scheme h s2,
      scheme ∈ [py "http"; py "https"] ∧ m = scheme ++ py "://" ++ h ∧
      h ≠ [] ∧ py "http" ++ s1 = m ++ r ∧ host s2 = (h, r)) as Hhttp.
  { intros (s2 & h & -> & Hh & Hne & ->)%after_scheme_Some.
    exists (py "http"), h, s2. split_and!; [set_solver|done|done| |done].
    by rewrite (host_app _ _ _ Hh), <-!app_assoc. }
  destruct (after_prefix (py "s") s1) as [s2|] eqn:Hs; [|done].
  apply after_prefix_Some in Hs as ->.
  destruct (after_scheme (py "https") s2) as [[m' r']|] eqn:Hhttps; [|done].
  intros [= -> ->].
  apply after_scheme_Some in Hhttps as (s3 & h & -> & Hh & Hne & ->).
  exists (py "https"), h, s3. split_and!; [set_solver|done|done| |done].
  by rewrite (host_app _ _ _ Hh), <-!app_assoc.
Qed.

Lemma match_url_again s m r : match_url s = Some (m, r) → match_url m = Some (m, []).
Proof.
  intros (scheme & h & s1 & Hscheme & -> & Hne & _ & Hh)%match_url_Some.
  pose proof (after_scheme_again (py "http") _ _ _ Hh Hne) as Hhttp.
  pose proof (after_scheme_again (py "https") _ _ _ Hh Hne) as Hhttps.
  unfold ChatbotWithUrlScraping.match_url.
  apply elem_of_cons in Hscheme as [->| ->%list_elem_of_singleton].
  - change (after_prefix (py "http") (py "http" ++ py "://" ++ h))
      with (Some (py "://" ++ h)). cbv iota.
    change (after_prefix (py "s") (py "://" ++ h)) with (@None str). cbv iota.
    done.
  - change (after_prefix (py "http") (py "https" ++ py "://" ++ h))
      with (Some (py "s" ++ py "://" ++ h)). cbv iota.
    change (after_prefix (py "s") (py "s" ++ py "://" ++ h))
      with (Some (py "://" ++ h)). cbv iota.
    by rewrite Hhttps.
Qed.

Lemma findall_from_past skip s :
  length s ≤ skip → findall_from skip s = [].
Proof.
  revert skip. induction s as [|c s IH]; intros skip Hlen; [done|].
  destruct skip as [|skip]; simpl in *; [lia|]. apply IH. lia.
Qed.

Lemma findall_from_in_order skip s :
  in_order (findall_from skip s) (drop skip s).
Proof.
  revert skip. induction s as [|c s IH]; intros skip.
  { exists [], []. by destruct skip. }
  destruct skip as [|skip]; [|apply IH]. cbn [findall_from drop].
  destruct (match_url (c :: s)) as [[m r]|] eqn:Hm.
  - destruct (match_url_Some _ _ _ Hm) as (scheme & h & s1 & _ & Hshape & _ & Hs & _).
    destruct m as [|c' m].
    { symmetry in Hshape. by apply app_nil in Hshape as [_ [=]]. }
    simpl in Hs. injection Hs as H1 H2. subst c s.
    destruct (IH (length (c' :: m) - 1)) as (gaps & rest & Hlen & Hdrop).
    simpl in Hdrop. rewrite Nat.sub_0_r, drop_app_length in Hdrop.
    exists ([] :: gaps), rest. cbn [length Nat.sub] in *.
    rewrite Nat.sub_0_r in *. split; [by rewrite Hlen|].
    cbn [zip_with concat app]. by rewrite <-app_assoc, <-Hdrop.
  - destruct (IH 0) as (gaps & rest & Hlen & Hdrop). rewrite drop_0 in Hdrop.
    destruct (findall_from 0 s) as [|u us] eqn:Hf.
    + exists [], (c :: rest). destruct gaps; [|done]. by rewrite Hdrop.
    + destruct gaps as [|g gaps]; [done|].
      exists ((c :: g) :: gaps), rest. split; [done|]. by rewrite Hdrop.
Qed.

Lemma elem_of_findall_from skip s url :
  url ∈ findall_from skip s →
  ∃ before after, s = before ++ url ++ after ∧ match_url (url ++ after) = Some (url, after).
Proof.
  revert skip. induction s as [|c s IH]; intros skip; [by intros ?%elem_of_nil|].
  assert (∀ k, url ∈ findall_from k s →
    ∃ before after, c :: s = before ++ url ++ after ∧
                    match_url (url ++ after) = Some (url, after)) as Hlater.
  { intros k (before & after & -> & Hm)%IH. by exists (c :: before), after. }
  destruct skip as [|skip]; [|apply Hlater]. cbn [findall_from].
  destruct (match_url (c :: s)) as [[m r]|] eqn:Hm; [|apply Hlater].
  intros [->|Hin]%elem_of_cons; [|by eapply Hlater].
  destruct (match_url_Some _ _ _ Hm) as (_ & _ & _ & _ & _ & _ & Hs & _).
  exists [], r. rewrite <-Hs. done.
Qed.

Lemma found_again url after :
  match_url (url ++ after) = Some (url, after) → findall_from 0 url = [url].
Proof.
  intros Hm%match_url_again.
  destruct url as [|c url]; [done|]. cbn [findall_from]. rewrite Hm.
  by rewrite findall_from_past by (simpl; lia).
Qed.

Lemma host_like_excludes h c :
  Forall host_like h → c ∈ [47; 58; 63; 35; 64; 32]%N → c ∉ h.
Proof.
  intros Hall Hc Hin. rewrite Forall_forall in Hall. specialize (Hall c Hin).
  repeat (apply elem_of_cons in Hc as [->|Hc];
          [destruct (Hall eq_refl) as [Ha|Ha];
           [by vm_compute in Ha
           |by apply (bool_decide_pack _) in Ha; vm_compute in Ha]|]).
  by apply elem_of_nil in Hc.
Qed.

Lemma found_shape skip s url :
  url ∈ findall_from skip s →
  occurs_in url s ∧
  ∃ scheme h,
    scheme ∈ [py "http"; py "https"] ∧ url = scheme ++ py "://" ++ h ∧
    h ≠ [] ∧ Forall host_like h.
Proof.
  intros (before & after & -> & Hm)%elem_of_findall_from.
  split; [by exists before, after|].
  apply match_url_Some in Hm as (scheme & h & s1 & ? & ? & ? & _ & Hh).
  exists scheme, h. eauto using host_chars.
Qed.

Lemma findall_from_nil skip s :
  ¬ occurs_in (py "://") s → findall_from skip s = [].
Proof.
  intros Hnot. destruct (findall_from skip s) as [|url urls] eqn:Hf; [done|].
  destruct (found_shape skip s url) as [(before & after & ->) (scheme & h & _ & -> & _)].
  { rewrite Hf. left. }
  destruct Hnot. exists (before ++ scheme), (h ++ after).
  by rewrite <-!app_assoc.
Qed.
End pattern_facts.

Lemma concat_filter_nonempty (chunks : list str) :
  concat (List.filter nonempty chunks) = concat chunks.
Proof.
  induction chunks as [|[|c chunk] chunks IH]; simpl; [done|done|].
  by rewrite IH.
Qed.

Lemma scraped_content_failures results :
  Forall (fun data => ∃ url e, data = Failure url e) results →
  ChatbotWithUrlScraping.scraped_content results = None.
Proof.
  intros Hall. unfold ChatbotWithUrlScraping.scraped_content.
  replace (omap ChatbotWithUrlScraping.context_block results) with (@nil str);
    [done|].
  induction Hall as [|data results (url & e & ->) _ IH]; [done|]. by simpl.
Qed.

(** X8.  A URL found in a message is [http] or [https], [://], and one
    character at least; among the characters of ASCII only letters,
    digits, hyphens, points, underscores and percent signs follow the
    scheme.  So a URL found never has a slash, a colon, a question mark,
    a number sign, an at sign or a space after the scheme: the path, the
    port and the query of a URL in a message are not part of what is
    scraped. *)
Theorem found_urls_are_scheme_and_host unicode_alnum unicode_decimal message url :
  url ∈ ChatbotWithUrlScraping.extract_urls_from_message
          unicode_alnum unicode_decimal message →
  ∃ scheme h,
    scheme ∈ [py "http"; py "https"] ∧ url = scheme ++ py "://" ++ h ∧
    h ≠ [] ∧ Forall host_like h ∧
    ∀ c, c ∈ [47; 58; 63; 35; 64; 32]%N → c ∉ h.
Proof.
  intros [_ (scheme & h & ? & ? & ? & Hall)]%found_shape.
  exists scheme, h. split_and!; [done..|]. intros c. by apply host_like_excludes.
Qed.

Lemma found_urls_are_scheme_and_host_witness :
  py "https://example.com" ∈
    ChatbotWithUrlScraping.extract_urls_from_message
      (fun _ => false) (fun _ => false)
      (py "see https://example.com/docs?page=2 please") ∧
  ∃ scheme h, py "https://example.com" = scheme ++ py "://" ++ h ∧ 47%N ∉ h.
Proof.
  assert (py "https://example.com" ∈
    ChatbotWithUrlScraping.extract_urls_from_message
      (fun _ => false) (fun _ => false)
      (py "see https://example.com/docs?page=2 please")) as Hin
    by (apply (bool_decide_unpack _); by vm_compute).
  split; [done|].
  destruct (found_urls_are_scheme_and_host _ _ _ _ Hin)
    as (scheme & h & _ & Hurl & _ & _ & Hno).
  exists scheme, h. split; [done|]. apply Hno. by left.
Defined.


(** X10.  A URL found in a message is all that is found in it: looking
    for URLs in it gives the URL itself and nothing else. *)
Theorem found_url_is_found_again unicode_alnum unicode_decimal message url :
  url ∈ ChatbotWithUrlScraping.extract_urls_from_message
          unicode_alnum unicode_decimal message →
  ChatbotWithUrlScraping.extract_urls_from_message
    unicode_alnum unicode_decimal url = [url].
Proof.
  intros (_ & after & _ & Hm)%elem_of_findall_from. by eapply found_again.
Qed.

Lemma found_url_is_found_again_witness :
  py "http://a.b" ∈
    ChatbotWithUrlScraping.extract_urls_from_message
      (fun _ => false) (fun _ => false) (py "at http://a.b:80/x") ∧
  ChatbotWithUrlScraping.extract_urls_from_message
    (fun _ => false) (fun _ => false) (py "http://a.b") = [py "http://a.b"].
Proof.
  assert (py "http://a.b" ∈
    ChatbotWithUrlScraping.extract_urls_from_message
      (fun _ => false) (fun _ => false) (py "at http://a.b:80/x")) as Hin
    by (apply (bool_decide_unpack _); by vm_compute).
  split; [done|]. by apply (found_url_is_found_again _ _ _ _ Hin).
Defined.

(** X11.  For a message in which [://] does not occur no URL is found,
    no request is issued, the model is given the message itself as its
    prompt, and the text shown is what the model answers to it. *)
Theorem message_without_url_goes_to_the_model
    unicode_alnum unicode_decimal E n generate_content message :
  ¬ occurs_in (py "://") message →
  ChatbotWithUrlScraping.extract_urls_from_message
    unicode_alnum unicode_decimal message = [] ∧
  ChatbotWithUrlScraping.respond unicode_alnum unicode_decimal E n
    generate_content message = ([], concat (generate_content message)).
Proof.
  intros Hnot.
  pose proof (findall_from_nil unicode_alnum unicode_decimal 0 message Hnot) as Hf.
  unfold ChatbotWithUrlScraping.respond,
    ChatbotWithUrlScraping.extract_urls_from_message. rewrite Hf.
  split; [done|]. simpl.
  unfold ChatbotWithUrlScraping.generate_response_stream. simpl.
  by rewrite concat_filter_nonempty.
Qed.

Lemma message_without_url_goes_to_the_model_witness :
  ¬ occurs_in (py "://") (py "hello") ∧
  ChatbotWithUrlScraping.respond (fun _ => false) (fun _ => false) Demo.E 0
    (fun prompt => [py "you said "; prompt]) (py "hello") =
  ([], py "you said hello").
Proof.
  assert (¬ occurs_in (py "://") (py "hello")) as Hnot.
  { intros (before & after & Heq).
    assert (58%N ∈ py "hello") as Hin by (rewrite Heq; set_solver).
    by apply (bool_decide_pack _) in Hin; vm_compute in Hin. }
  split; [done|].
  by apply (message_without_url_goes_to_the_model
              (fun _ => false) (fun _ => false) Demo.E 0
              (fun prompt => [py "you said "; prompt]) (py "hello")).
Defined.

(** X12.  When the scrape of every URL found in a message fails, the
    model is given the message itself as its prompt, as for a message
    without a URL; one request is issued for each URL found, in order. *)
Theorem failed_scrapes_leave_the_message
    unicode_alnum unicode_decimal E n generate_content message :
  (∀ i url,
     ChatbotWithUrlScraping.extract_urls_from_message
       unicode_alnum unicode_decimal message !! i = Some url →
     ∃ e, scrape_url E (n + i) url = Failure url e) →
  ChatbotWithUrlScraping.respond unicode_alnum unicode_decimal E n
    generate_content message =
  (ChatbotWithUrlScraping.extract_urls_from_message
     unicode_alnum unicode_decimal message,
   concat (generate_content message)).
Proof.
  intros Hfail. unfold ChatbotWithUrlScraping.respond.
  rewrite scraped_content_failures.
  - unfold ChatbotWithUrlScraping.generate_response_stream. simpl.
    by rewrite concat_filter_nonempty.
  - apply Forall_forall. intros data Hin.
    apply list_elem_of_lookup in Hin as [i Hi].
    rewrite list_lookup_imap in Hi.
    destruct (_ !! i) as [url|] eqn:Hurl; [|done]. injection Hi as <-.
    destruct (Hfail i url Hurl) as [e ->]. eauto.
Qed.

Lemma failed_scrapes_leave_the_message_witness :
  scrape_url Demo.E 0 (py "https://ex.test") =
    Failure (py "https://ex.test") (py "Connection refused") ∧
  ChatbotWithUrlScraping.respond (fun _ => false) (fun _ => false) Demo.E 0
    (fun prompt => [prompt]) (py "read https://ex.test/f for me") =
  ([py "https://ex.test"], py "read https://ex.test/f for me").
Proof.
  split; [by vm_compute|].
  apply (failed_scrapes_leave_the_message (fun _ => false) (fun _ => false)
           Demo.E 0 (fun prompt => [prompt]) (py "read https://ex.test/f for me")).
  intros [|[|i]] url Hurl; vm_compute in Hurl; [|done..].
  injection Hurl as <-. eexists. by vm_compute.
Defined.

(** * Files written and read back *)

(** ** Paths *)

Lemma split_from_without c cur s :
  c ∉ s → Urllib.split_from c cur s = [reverse cur ++ s].
Proof.
  revert cur. induction s as [|x s IH]; intros cur Hc; simpl.
  - by rewrite app_nil_r.
  - apply not_elem_of_cons in Hc as [Hx Hs].
    rewrite bool_decide_eq_false_2 by done.
    rewrite IH by done. by rewrite reverse_cons, <-app_assoc.
Qed.

Lemma components_name s :
  47%N ∉ s → s ≠ [] → s ≠ py "." → Pathlib.components s = [s].
Proof.
  intros Hs Hne Hdot. unfold Pathlib.components, Urllib.split.
  rewrite split_from_without by done. simpl.
  rewrite bool_decide_eq_false_2 by done. by destruct s.
Qed.

Lemma to_str_name s :
  47%N ∉ s → s ≠ [] → s ≠ py "." → Pathlib.to_str s = s.
Proof.
  intros Hs Hne Hdot. unfold Pathlib.to_str.
  rewrite components_name by done. simpl.
  destruct s as [|c s]; [done|].
  apply not_elem_of_cons in Hs as [Hc _].
  assert (Pathlib.root (c :: s) = []) as ->; [|done].
  unfold Pathlib.root. by rewrite bool_decide_eq_false_2.
Qed.

Lemma rfind_without c s : c ∉ s → Pathlib.rfind c s = None.
Proof.
  induction s as [|x s IH]; [done|]. intros [Hx Hs]%not_elem_of_cons. simpl.
  by rewrite IH, bool_decide_eq_false_2 by done.
Qed.

Lemma rfind_last c before after :
  c ∉ after → Pathlib.rfind c (before ++ c :: after) = Some (length before).
Proof.
  intros Hc. induction before as [|x before IH]; simpl.
  - by rewrite rfind_without, bool_decide_eq_true_2.
  - by rewrite IH.
Qed.

Lemma suffix_name stem extension :
  Forall plain stem → Forall plain extension → stem ≠ [] → extension ≠ [] →
  Pathlib.to_str (stem ++ 46%N :: extension) = stem ++ 46%N :: extension ∧
  Pathlib.suffix (stem ++ 46%N :: extension) = 46%N :: extension.
Proof.
  intros Hstem Hext Hs He.
  assert (47%N ∉ stem ++ 46%N :: extension) as Hslash.
  { rewrite elem_of_app, elem_of_cons. rewrite Forall_forall in Hstem, Hext.
    intros [Hin|[?|Hin]]; [by destruct (Hstem _ Hin)|done|by destruct (Hext _ Hin)]. }
  assert (46%N ∉ extension) as Hdot.
  { rewrite Forall_forall in Hext. intros Hin. by destruct (Hext _ Hin). }
  assert (stem ++ 46%N :: extension ≠ py ".") as Hname.
  { destruct stem as [|c [|??]]; [done| |done]. by destruct extension. }
  split; [apply to_str_name; [done| |done]; by destruct stem|].
  unfold Pathlib.suffix, Pathlib.name.
  rewrite components_name by (done || by destruct stem). simpl.
  rewrite rfind_last by done.
  rewrite drop_app_length.
  assert (0 < length stem) as H0 by (destruct stem; [done|simpl; lia]).
  assert (length stem < length (stem ++ 46%N :: extension) - 1) as H1.
  { rewrite length_app. destruct extension; [done|]. simpl. lia. }
  apply Nat.ltb_lt in H0, H1. by rewrite H0, H1.
Qed.

(** ** The clock *)

Lemma uint_chars_digits d :
  Forall (fun c => (48 ≤ c ≤ 57)%N) (Json.uint_chars d).
Proof. induction d; simpl; by constructor. Qed.

Lemma decimal_digits n : Forall (fun c => (48 ≤ c ≤ 57)%N) (Datetime.decimal n).
Proof.
  unfold Datetime.decimal, Json.int_repr.
  destruct n; [by repeat constructor|]. simpl. apply uint_chars_digits.
Qed.

Lemma two_digits_digits n :
  Forall (fun c => (48 ≤ c ≤ 57)%N) (Datetime.two_digits n).
Proof.
  unfold Datetime.two_digits. destruct (n <? 10)%N; [constructor; [lia|]|];
    apply decimal_digits.
Qed.

Lemma decimal_nonempty n : Datetime.decimal n ≠ [].
Proof.
  unfold Datetime.decimal, Json.int_repr.
  destruct n as [|p]; simpl; [done|].
  pose proof (DecimalPos.Unsigned.to_uint_nonnil p) as Hp.
  by destruct (Pos.to_uint p).
Qed.

Lemma strftime_compact_plain now : Forall plain (Datetime.strftime_compact now).
Proof.
  assert (∀ s, Forall (fun c => (48 ≤ c ≤ 57)%N) s → Forall plain s) as Hd.
  { intros s Hs. eapply Forall_impl; [done|]. intros c Hc. simpl in Hc. unfold plain. lia. }
  unfold Datetime.strftime_compact.
  repeat apply Forall_app_2;
    first [apply Hd, decimal_digits|apply Hd, two_digits_digits
          |by repeat constructor].
Qed.

Lemma strftime_readable_no_cr now :
  JsonShape.no_cr (Datetime.strftime_readable now).
Proof.
  assert (∀ s, Forall (fun c => (48 ≤ c ≤ 57)%N) s → JsonShape.no_cr s) as Hd.
  { intros s Hs. eapply Forall_impl; [done|]. intros c Hc. simpl in Hc. unfold CR. lia. }
  unfold Datetime.strftime_readable.
  repeat apply Forall_app_2;
    first [apply Hd, decimal_digits|apply Hd, two_digits_digits
          |by repeat constructor].
Qed.

(** The name of the file of [save_results]. *)
Lemma saved_name now (extension : string) :
  Forall plain (py extension) → py extension ≠ [] →
  let filename :=
    py "scraped_data_" ++ Datetime.strftime_compact now
    ++ 46%N :: py extension in
  Pathlib.to_str filename = filename ∧
  Pathlib.suffix filename = 46%N :: py extension.
Proof.
  intros Hext Hne filename. subst filename. rewrite app_assoc.
  apply suffix_name; [|done| |done].
  - apply Forall_app_2; [|apply strftime_compact_plain].
    apply Forall_forall. intros c Hc. unfold plain.
    split; intros ->; by apply (bool_decide_pack _) in Hc; vm_compute in Hc.
  - done.
Qed.

(** ** Carriage returns *)

Lemma clean_text_no_cr text : JsonShape.no_cr (clean_text text).
Proof.
  unfold clean_text. apply JsonFacts.no_cr_join; [by repeat constructor|].
  eapply Forall_impl; [apply clean_lines_trimmed|].
  intros line (_ & _ & Hline). eapply Forall_impl; [done|].
  intros c Hc ->. done.
Qed.

Lemma scrape_webpage_no_cr E n url data :
  scrape_webpage E n url = Some data → JsonShape.no_cr (Page.content data).
Proof.
  unfold scrape_webpage. destruct (requests_get E n url); [done|].
  destruct (is_http_error _); [done|]. unfold extract.
  intros [= <-]. apply clean_text_no_cr.
Qed.

Ltac no_cr_parts :=
  repeat apply JsonFacts.no_cr_app;
  first [done|apply JsonFacts.no_cr_int_repr|apply strftime_readable_no_cr
        |apply Forall_replicate; done
        |apply (bool_decide_unpack _); by vm_compute].

Lemma no_cr_txt_text results :
  Forall cr_free results → JsonShape.no_cr (SimpleScraper.txt_text results).
Proof.
  unfold SimpleScraper.txt_text.
  induction 1 as [|data results (Hu & Ht & Hc) _ IH]; [constructor|].
  rewrite fmap_cons, concat_cons. apply JsonFacts.no_cr_app; [|done].
  unfold SimpleScraper.txt_entry, SimpleScraper.rule. no_cr_parts.
Qed.

Lemma no_cr_markdown_entries results i :
  Forall cr_free results →
  JsonShape.no_cr
    (concat (imap (fun j result => SimpleScraper.markdown_entry (S (i + j)) result)
               results)).
Proof.
  intros Hall. revert i.
  induction Hall as [|data results (Hu & Ht & Hc) _ IH]; intros i; [constructor|].
  rewrite imap_cons, concat_cons. apply JsonFacts.no_cr_app.
  - unfold SimpleScraper.markdown_entry. no_cr_parts.
  - specialize (IH (S i)). erewrite imap_ext; [apply IH|].
    intros j r _. cbv beta. unfold compose. f_equal. lia.
Qed.

Lemma no_cr_markdown_text scraped_at results :
  Forall cr_free results →
  JsonShape.no_cr (SimpleScraper.markdown_text scraped_at results).
Proof.
  intros Hall. unfold SimpleScraper.markdown_text.
  repeat (apply JsonFacts.no_cr_app;
          [first [apply JsonFacts.no_cr_int_repr|apply strftime_readable_no_cr
                 |apply (bool_decide_unpack _); by vm_compute]|]).
  apply (no_cr_markdown_entries results 0 Hall).
Qed.

(** ** Files written and read *)

Lemma load_saved_json crlf results :
  load_scraped_data (save_results_json crlf results) =
  Some (join [LF; LF] (entry_of <$> results)).
Proof.
  unfold load_scraped_data, json_load, save_results_json.
  rewrite read_write_text by apply JsonFacts.no_cr_dumps.
  rewrite JsonFacts.loads_dumps. simpl. by rewrite context_entries.
Qed.

Lemma load_written fs now (extension : string) content :
  Forall plain (py extension) → py extension ≠ [] →
  let filename :=
    py "scraped_data_" ++ Datetime.strftime_compact now
    ++ 46%N :: py extension in
  ChatbotWithContext.load_scraped_data (<[filename := content]> fs) filename =
  if decide (46%N :: py extension = py ".json")
  then Some <$> load_scraped_data content
  else if bool_decide (46%N :: py extension ∈ [py ".md"; py ".txt"])
       then Some (Some (read_text content)) else Some None.
Proof.
  intros Hext Hne filename.
  destruct (saved_name now extension Hext Hne) as [Hstr Hsuffix].
  fold filename in Hstr, Hsuffix.
  unfold ChatbotWithContext.load_scraped_data.
  by rewrite Hstr, lookup_insert_eq, Hsuffix.
Qed.

Ltac plain_literal :=
  first [apply (bool_decide_unpack _); by vm_compute|done].




(** X15.  When an item of the list in a [.json] file has no [url], no
    [title] or no [content], as when it is not a dictionary,
    [load_scraped_data] raises and gives no context, whatever the other
    items are. *)
Theorem item_without_key_loses_the_file content items item key :
  json_load content = Some (PList items) → item ∈ items →
  key ∈ [py "url"; py "title"; py "content"] → getitem key item = None →
  load_scraped_data content = None.
Proof.
  intros Hload Hitem Hkey Hget. unfold load_scraped_data. rewrite Hload. simpl.
  apply fmap_None, mapM_None, Exists_exists. exists item. split; [done|].
  unfold context_entry.
  apply elem_of_cons in Hkey as [->|Hkey]; [by rewrite Hget|].
  destruct (getitem (py "url") item ≫= format_value); [|done]. simpl.
  apply elem_of_cons in Hkey as [->|Hkey]; [by rewrite Hget|].
  destruct (getitem (py "title") item ≫= format_value); [|done]. simpl.
  apply list_elem_of_singleton in Hkey as ->. by rewrite Hget.
Qed.

Lemma item_without_key_loses_the_file_witness :
  json_load (Json.dumps (PList [Sample.whole; Sample.partial])) =
    Some (PList [Sample.whole; Sample.partial]) ∧
  getitem (py "content") Sample.partial = None ∧
  load_scraped_data (Json.dumps (PList [Sample.whole; Sample.partial])) = None.
Proof.
  assert (json_load (Json.dumps (PList [Sample.whole; Sample.partial])) =
          Some (PList [Sample.whole; Sample.partial])) as Hload by (by vm_compute).
  split_and!; [done|done|].
  apply (item_without_key_loses_the_file _ [Sample.whole; Sample.partial]
           Sample.partial (py "content") Hload); [|by do 2 right; left|done].
  right; left.
Defined.


(** X17.  [main] with [--single] leaves the files that it leaves with
    [--max-depth 0] and a [--max-pages] of 1 or more: the record of the
    URL in the format asked for, or nothing when the scrape fails. *)
Theorem single_is_depth_zero
    E fuel fuel' crlf now scraped_at fs url pages pages' depth' format :
  (1 ≤ pages)%Z →
  SimpleScraper.main E (S fuel) crlf now scraped_at fs
    (SimpleScraper.Args url pages 0 format false) =
  SimpleScraper.main E fuel' crlf now scraped_at fs
    (SimpleScraper.Args url pages' depth' format true).
Proof.
  intros Hpages. unfold SimpleScraper.main. simpl.
  rewrite scrape_website_depth_zero by done.
  by destruct (scrape_webpage E 0 url).
Qed.

Lemma single_is_depth_zero_witness :
  (1 ≤ 10)%Z ∧
  SimpleScraper.main Demo.E 1 false Sample.now Sample.now ∅
    (SimpleScraper.Args Demo.home 10 0 SimpleScraper.txt false) =
  SimpleScraper.main Demo.E 0 false Sample.now Sample.now ∅
    (SimpleScraper.Args Demo.home 1 2 SimpleScraper.txt true).
Proof.
  split; [lia|].
  apply (single_is_depth_zero Demo.E 0 0 false Sample.now Sample.now ∅
           Demo.home 10 1 2 SimpleScraper.txt).
  lia.
Defined.

(** X18.  [scrape_url] and [scrape_webpage] agree on every answer to a
    request: one fails when the other does, and when they succeed they
    give the same URL, the same title and the same length, the content
    of [scrape_url] being the first 15000 characters of the content of
    [scrape_webpage]. *)
Theorem scrapers_agree E n url :
  match scrape_webpage E n url, scrape_url E n url with
  | Some data, Success url' title content len =>
      url' = url ∧ Page.url data = url ∧ title = Page.title data ∧
      content = take (Z.to_nat 15000) (Page.content data) ∧
      len = Page.length data
  | None, Failure url' _ => url' = url
  | _, _ => False
  end.
Proof.
  unfold scrape_webpage, scrape_url.
  destruct (requests_get E n url) as [e|r]; [done|].
  destruct (is_http_error (status_code r)); [done|].
  by destruct (extract url (soup r)).
Qed.
